(** * pyro/distributions/lkj.py: the LKJ prior over Cholesky factors of
      correlation matrices, and the transforms that reach its support.

    The tensors of the source are modelled for one batch element: a vector is
    a [list R], a matrix a [Tensor2] (its two trailing dimensions and its rows).
    Floating-point numbers are idealised as real numbers, so every statement
    below is exact over [R]; rounding is outside the model.  Exceptions are
    results of type [result]. *)

From Stdlib Require Import Reals Lra Lia List Arith Bool.
From Stdlib Require String ClassicalEpsilon.
Import ListNotations String.StringSyntax.

Set Implicit Arguments.

Open Scope R_scope.

(** ** Exceptions *)

Inductive exn : Set :=
  ValueError | NameError | TypeError | IndexError | RuntimeError.

Inductive result (A : Type) : Type :=
| Ok (a : A)
| Raise (e : exn).

Arguments Ok {A} a.
Arguments Raise {A} e.

Definition bind {A B : Type} (m : result A) (k : A -> result B) : result B :=
  match m with
  | Ok a => k a
  | Raise e => Raise e
  end.

Notation "x <- m ;; k" := (bind m (fun x => k))
  (at level 61, m at next level, right associativity).

(** ** The host array runtime (torch), as far as lkj.py uses it *)

Module Torch.

Definition tabulate {A : Type} (n : nat) (f : nat -> A) : list A :=
  map f (seq 0 n).

(** [l[lo:hi]] for non-negative bounds; out-of-range bounds are clamped. *)
Definition slice (lo hi : nat) (l : list R) : list R :=
  firstn (hi - lo) (skipn lo l).

(** [l[lo:]] *)
Definition slice_from (lo : nat) (l : list R) : list R := skipn lo l.

(** [l[:-1]] *)
Definition drop_last (l : list R) : list R := firstn (length l - 1) l.

Fixpoint map2 (f : R -> R -> R) (a b : list R) : list R :=
  match a, b with
  | u :: a', v :: b' => f u v :: map2 f a' b'
  | _, _ => []
  end.

(** Elementwise [+], [*] and [/] of two vectors.  The source only combines
    vectors of one length (see [call_shapes_agree] below). *)
Definition vadd : list R -> list R -> list R := map2 Rplus.
Definition vmul : list R -> list R -> list R := map2 Rmult.
Definition vdiv : list R -> list R -> list R := map2 Rdiv.

(** [t.sum(-1)] *)
Definition vsum (l : list R) : R := fold_right Rplus 0 l.

(** [t.norm(dim=-1)] *)
Definition norm (l : list R) : R := sqrt (vsum (map (fun v => v ^ 2) l)).

(** [t.cumsum(-1)] *)
Fixpoint cumsum_from (acc : R) (l : list R) : list R :=
  match l with
  | [] => []
  | a :: t => (acc + a) :: cumsum_from (acc + a) t
  end.

Definition cumsum : list R -> list R := cumsum_from 0.

Definition zeros (n : nat) : list R := repeat 0 n.

(** A matrix: [shape0] is [shape[-2]], [shape1] is [shape[-1]]. *)
Record Tensor2 : Type := mkTensor2 {
  shape0 : nat;
  shape1 : nat;
  rows : list (list R)
}.

Definition wf (y : Tensor2) : Prop :=
  length (rows y) = shape0 y /\
  forall r, (r < shape0 y)%nat -> length (nth r (rows y) []) = shape1 y.

Definition zeros2 (r c : nat) : Tensor2 := mkTensor2 r c (repeat (zeros c) r).

Definition row (y : Tensor2) (r : nat) : list R := nth r (rows y) [].

(** [y[r, c]] *)
Definition item (y : Tensor2) (r c : nat) : R := nth c (row y r) 0.

(** [y[lo:, c]] *)
Definition col_from (y : Tensor2) (lo c : nat) : list R :=
  map (fun l => nth c l 0) (skipn lo (rows y)).

(** [y[r, lo:hi]] *)
Definition row_slice (y : Tensor2) (r lo hi : nat) : list R :=
  slice lo hi (row y r).

(** [y.diagonal(offset=0, dim1=-1, dim2=-2)] *)
Definition diagonal (y : Tensor2) : list R :=
  tabulate (Nat.min (shape0 y) (shape1 y)) (fun k => item y k k).

(** One row with entry [c] replaced. *)
Definition upd (c : nat) (v : R) (l : list R) : list R :=
  tabulate (length l) (fun k => if (k =? c)%nat then v else nth k l 0).

Definition set_rows (y : Tensor2) (f : nat -> list R -> list R) : Tensor2 :=
  mkTensor2 (shape0 y) (shape1 y)
    (tabulate (shape0 y) (fun r => f r (row y r))).

(** [y[r, c] = v] *)
Definition set_item (y : Tensor2) (r c : nat) (v : R) : Tensor2 :=
  set_rows y (fun r' l => if (r' =? r)%nat then upd c v l else l).

(** [y[lo:, c] = vals] *)
Definition set_col_from (y : Tensor2) (lo c : nat) (vals : list R) : Tensor2 :=
  set_rows y (fun r l =>
    if (lo <=? r)%nat then upd c (nth (r - lo) vals 0) l else l).

(** [y[r, lo:hi] = vals] *)
Definition set_row_slice (y : Tensor2) (r lo hi : nat) (vals : list R)
  : Tensor2 :=
  set_rows y (fun r' l =>
    if (r' =? r)%nat
    then tabulate (length l) (fun k =>
           if ((lo <=? k) && (k <? hi))%nat then nth (k - lo) vals 0
           else nth k l 0)
    else l).

(** [torch.eye(n).ne(1.0)] as a 0/1 matrix: 1 off the diagonal. *)
Definition eye_ne_1 (n : nat) : Tensor2 :=
  mkTensor2 n n
    (tabulate n (fun r => tabulate n (fun c => if (r =? c)%nat then 0 else 1))).

(** [torch.linspace(start, end, steps)] *)
Definition linspace (start stop : R) (steps : nat) : list R :=
  match steps with
  | O => []
  | S O => [start]
  | S _ =>
      tabulate steps
        (fun i => start + INR i * ((stop - start) / INR (steps - 1)))
  end.

(** The truth value of [a < b] and of [a == b] on numbers. *)
Definition Rltb (a b : R) : bool := if Rlt_dec a b then true else false.
Definition Reqb (a b : R) : bool := if Req_dec_T a b then true else false.

(** [t.min(-1)[0]] of a vector of truth values: whether all hold.  An empty
    vector has no minimum: the runtime raises [IndexError]. *)
Definition all_min (l : list bool) : result bool :=
  match l with
  | [] => Raise IndexError
  | _ => Ok (forallb (fun b => b) l)
  end.

(** [constraints.lower_cholesky.check(value)] of torch.distributions, on a
    square matrix: it equals its lower triangle and its diagonal is
    positive. *)
Definition lower_cholesky_check (value : Tensor2) : bool :=
  forallb (fun r =>
             forallb (fun c => if (r <? c)%nat then Reqb (item value r c) 0
                               else true)
                     (seq 0 (shape1 value)))
          (seq 0 (shape0 value))
  && forallb (fun v => Rltb 0 v) (diagonal value).

(** [Beta(concentration1, concentration0)] of pyro.distributions: the
    distribution keeps its two parameters; it cannot be built on empty
    vectors, where the runtime raises [RuntimeError]. *)
Definition Beta (concentration1 concentration0 : list R)
  : result (list R * list R) :=
  match concentration1 with
  | [] => Raise RuntimeError
  | _ :: _ => Ok (concentration1, concentration0)
  end.

(** [v.expand_as(w)] on vectors: sizes agree, or a size of one is repeated. *)
Definition expand_as (v : list R) (n : nat) : result (list R) :=
  if (length v =? n)%nat then Ok v
  else if (length v =? 1)%nat then Ok (repeat (nth 0 v 0) n)
  else Raise RuntimeError.

End Torch.

Import Torch.

(** ** _CorrCholesky *)

Module CorrCholesky.

Definition check (value : Tensor2) : result bool :=
  unit_norm_row <-
    all_min (tabulate (shape0 value)
               (fun r => Rltb (norm (row value r) - 1) 1e-6)) ;;
  Ok (lower_cholesky_check value && unit_norm_row).

End CorrCholesky.

(** ** _PartialCorrToCorrLCholeskyTransform *)

Module PartialCorrToCorrLCholeskyTransform.

(** The variables the loop of [_call] carries from one column to the next. *)
Record call_state : Type := mkCallState {
  cs_y : Tensor2;
  cs_i : nat;
  cs_last_squared_y : list R
}.

(** The body of [for j in range(1, D)]. *)
Definition call_body (x : list R) (D : nat) (st : call_state) (j : nat)
  : call_state :=
  let distance_to_copy := (D - 1 - j)%nat in
  let last_squared_y :=
    vadd (slice_from 1 (cs_last_squared_y st))
         (map (fun v => v ^ 2) (col_from (cs_y st) j (j - 1))) in
  let y := set_item (cs_y st) j j (sqrt (1 - nth 0 last_squared_y 0)) in
  let y :=
    set_col_from y (j + 1) j
      (vmul (slice (cs_i st) (cs_i st + distance_to_copy) x)
            (map (fun v => sqrt (1 - v)) (slice_from 1 last_squared_y))) in
  mkCallState y (cs_i st + distance_to_copy) last_squared_y.

(** [D = (1 + sqrt(1 + 8 n)) / 2], and the test [D % 1 != 0]: [D] is whole
    exactly when [1 + 8 n] is a perfect square (its root is then odd).  The
    source computes [D] in binary64, which agrees with this exact test as
    long as [1 + 8 n] and its root are far from the 53 bits of a double;
    for lengths near [2^52] and above it need not. *)
Definition dimension (n : nat) : result nat :=
  let s := Nat.sqrt (1 + 8 * n) in
  if (s * s =? 1 + 8 * n)%nat then Ok ((1 + s) / 2)%nat
  else Raise ValueError.

Definition call_init (x : list R) (D : nat) : call_state :=
  let y := zeros2 D D in
  let y := set_item y 0 0 1 in
  let y := set_col_from y 1 0 (slice 0 (D - 1) x) in
  mkCallState y (D - 1) (zeros D).

Definition _call (x : list R) : result Tensor2 :=
  D <- dimension (length x) ;;
  Ok (cs_y (fold_left (call_body x D) (seq 1 (D - 1)) (call_init x D))).

(** The body of [for i in range(2, D)] in [_inverse]. *)
Definition inverse_body (y : Tensor2) (z_tri : Tensor2) (i : nat) : Tensor2 :=
  set_row_slice z_tri (i - 2) 0 (i - 1)
    (vdiv (row_slice y i 1 i)
          (map (fun v => sqrt (1 - v))
               (cumsum (map (fun v => v ^ 2) (row_slice y i 0 (i - 1)))))).

(** [torch.zeros(.. + (D - 2, D - 2))] needs [D - 2 >= 0]: a negative size
    is refused by the runtime. *)
Definition _inverse (y : Tensor2) : result (list R) :=
  if negb (shape0 y =? shape1 y)%nat then Raise ValueError
  else
    let D := shape1 y in
    if (D <? 2)%nat then Raise RuntimeError
    else
      let z_tri :=
        fold_left (inverse_body y) (seq 2 (D - 2)) (zeros2 (D - 2) (D - 2)) in
      let z_stack :=
        col_from y 1 0 :: map (fun j => col_from z_tri j j) (seq 0 (D - 2)) in
      Ok (concat z_stack).

(** [mask.expand_as(y)]: the [D x D] mask fits a [D x D] matrix, and a
    [1 x 1] mask is repeated down a one-column matrix. *)
Definition mask_for (y : Tensor2) : result Tensor2 :=
  let D := shape1 y in
  if (shape0 y =? D)%nat then Ok (eye_ne_1 D)
  else if (D =? 1)%nat then Ok (zeros2 (shape0 y) 1)
  else Raise RuntimeError.

(** The first argument is a vector, or the [None] that
    [UnconstrainedToCorrLCholeskyTransform] passes. *)
Definition log_abs_det_jacobian (x : option (list R)) (y : Tensor2)
  : result R :=
  mask <- mask_for y ;;
  let x_l :=
    tabulate (shape0 y) (fun r => vmul (row y r) (row mask r)) in
  Ok (vsum (map (fun l => ln (1 - vsum (map (fun v => v ^ 2) l))) x_l) * 0.5).

End PartialCorrToCorrLCholeskyTransform.

(** ** UnconstrainedToCorrLCholeskyTransform *)

Module UnconstrainedToCorrLCholeskyTransform.

Module Inner := PartialCorrToCorrLCholeskyTransform.

(** [tanh], [cosh] and [log] are the real functions.  The [tanh] of the
    runtime, in single precision, is exactly 1 or -1 from about [|u| = 9]
    on, where the real one stays inside (-1, 1). *)

Definition _call (x : list R) : result Tensor2 :=
  let z := map tanh x in
  Inner._call z.

Definition _inverse (y : Tensor2) : result (list R) :=
  z <- Inner._inverse y ;;
  Ok (map (fun v => ln ((1 + v) / (1 - v)) / 2) z).

Definition log_abs_det_jacobian (x : list R) (y : Tensor2) : result R :=
  inner <- Inner.log_abs_det_jacobian None y ;;
  Ok (vsum (map (fun v => ln (cosh v)) x) * (-2) + inner).

End UnconstrainedToCorrLCholeskyTransform.

(** ** Names and the log-gamma function *)

Local Open Scope string_scope.

(** The names that lkj.py binds at module level: its imports, classes and
    functions.  None of them is an exception class. *)
Definition module_names : list String.string :=
  ["absolute_import"; "division"; "print_function"; "math"; "torch";
   "biject_to"; "constraints"; "transform_to"; "Constraint"; "Transform";
   "ComposeTransform"; "Beta"; "TorchDistribution"; "_CorrCholesky";
   "corr_cholesky_constraint"; "_PartialCorrToCorrLCholeskyTransform";
   "UnconstrainedToCorrLCholeskyTransform"; "_transform_to_corr_cholesky";
   "CorrLCholeskyLKJPrior"].

(** The builtin exceptions that the model tells apart. *)
Definition builtin_exceptions : list (String.string * exn) :=
  [("ValueError", ValueError); ("NameError", NameError);
   ("TypeError", TypeError); ("IndexError", IndexError);
   ("RuntimeError", RuntimeError)].

Fixpoint assoc (name : String.string) (l : list (String.string * exn))
  : option exn :=
  match l with
  | [] => None
  | (k, e) :: t => if String.eqb name k then Some e else assoc name t
  end.

(** The exception that [raise name(..)] ends in, inside a function that has
    no local of that name: a module-level name is not an exception
    ([TypeError]), a builtin exception is raised as such, and a name that is
    bound nowhere raises [NameError] when it is looked up. *)
Definition raise_named (name : String.string) : exn :=
  if existsb (String.eqb name) module_names then TypeError
  else match assoc name builtin_exceptions with
       | Some e => e
       | None => NameError
       end.

(** The name in [raise ValueException("eta must be > 0")], line 162. *)
Definition init_raises : String.string := "ValueException".

Local Close Scope string_scope.

(** [torch.lgamma]: the logarithm of the gamma function, taken as the limit of
    Gauss's product, [ln (n! n^x / (x (x+1) ... (x+n)))]. *)
Definition lgamma_seq (x : R) (n : nat) : R :=
  ln (INR (fact (S n))) + x * ln (INR (S n))
  - sum_f_R0 (fun k => ln (x + INR k)) (S n).

Definition lgamma (x : R) : R :=
  ClassicalEpsilon.epsilon (inhabits 0) (fun l => Un_cv (lgamma_seq x) l).

(** ** CorrLCholeskyLKJPrior *)

Module CorrLCholeskyLKJPrior.

(** The instance: [concentrations] are the two (equal) parameters of
    [_generating_distribution = Beta(concentrations, concentrations)]. *)
Record t : Type := mk {
  concentrations : list R;
  _eta : R;
  _d : nat;
  _lkj_constant : option R
}.

(** [concentrations[..., i] = alpha] *)
Definition store (concentrations : list R) (i : nat) (alpha : R)
  : result (list R) :=
  if (i <? length concentrations)%nat then Ok (upd i alpha concentrations)
  else Raise IndexError.

(** The loop [for j in range(k+1, d)]: state is [(concentrations, i)]. *)
Definition fill_block (alpha : R) (st : result (list R * nat)) (j : nat)
  : result (list R * nat) :=
  s <- st ;;
  c <- store (fst s) (snd s) alpha ;;
  Ok (c, S (snd s)).

(** The loop [for k in range(d-1)]: state is [(alpha, concentrations, i)]. *)
Definition fill_blocks (d : nat) (st : result (R * (list R * nat))) (k : nat)
  : result (R * (list R * nat)) :=
  s <- st ;;
  let alpha := fst s - 0.5 in
  s' <- fold_left (fill_block alpha) (seq (k + 1) (d - (k + 1))) (Ok (snd s)) ;;
  Ok (alpha, s').

(** [__init__(d, eta)] for a number [eta].  [storage] is the content of the
    memory that [eta.new().resize_(vector_size,)] hands out. *)
Definition __init__ (storage : nat -> R) (d : nat) (eta : R) : result t :=
  if Rle_dec eta 0 then Raise (raise_named init_raises)
  else
    let vector_size := ((d * (d - 1)) / 2)%nat in
    let alpha := eta + 0.5 * (INR d - 1.0) in
    let concentrations := tabulate vector_size storage in
    s <- fold_left (fill_blocks d) (seq 0 (d - 1))
           (Ok (alpha, (concentrations, O))) ;;
    _generating_distribution <- Beta (fst (snd s)) (fst (snd s)) ;;
    Ok (mk (fst _generating_distribution) eta d None).


(** [lkj_constant(eta, K)]: the value, and the instance with its cache.
    [K - 1 < 0] makes [torch.linspace] refuse its [steps]. *)
Definition lkj_constant (self : t) (eta : R) (K : nat) : result (R * t) :=
  match _lkj_constant self with
  | Some c => Ok (c, self)
  | None =>
      match K with
      | O => Raise RuntimeError
      | S Km1 =>
          let constant := lgamma (eta + 0.5 * INR Km1) * INR Km1 in
          let k := linspace 1 (INR Km1) Km1 in
          let constant :=
            constant -
            vsum (vadd (map (fun v => v * (ln PI * 0.5)) k)
                       (map (fun v => lgamma (eta + 0.5 * (INR Km1 - v))) k)) in
          Ok (constant,
              mk (concentrations self) (_eta self) (_d self) (Some constant))
      end
  end.

Definition log_prob (self : t) (x : Tensor2) : result (R * t) :=
  let eta := _eta self in
  r <- lkj_constant self eta (_d self) ;;
  let lp := fst r in
  match shape1 x with
  | O => Raise RuntimeError
  | S Km1 =>
      let log_diagonals := map ln (drop_last (diagonal x)) in
      lin <- expand_as (linspace (INR Km1 - 1) 0 Km1) (length log_diagonals) ;;
      let values := vmul log_diagonals lin in
      let values :=
        vadd values (map (fun v => v * (eta * 2 + -2.0)) log_diagonals) in
      Ok (vsum values + lp, snd r)
  end.

End CorrLCholeskyLKJPrior.

(** ** The closed form of [_call]

    Column [c] of the matrix takes its entries below the diagonal from the
    block of [x] that starts at [offset D c]; [remaining x D r c] is what is
    left of row [r]'s unit length before column [c] is filled. *)

Fixpoint offset (D j : nat) : nat :=
  match j with
  | O => O
  | S j' => (offset D j' + (D - 1 - j'))%nat
  end.

Definition partial (x : list R) (D r c : nat) : R :=
  nth (offset D c + (r - c - 1)) x 0.

Fixpoint remaining (x : list R) (D r c : nat) : R :=
  match c with
  | O => 1
  | S c' =>
      remaining x D r c' - (partial x D r c' * sqrt (remaining x D r c')) ^ 2
  end.

Definition cell (x : list R) (D r c : nat) : R :=
  if (c <? r)%nat then partial x D r c * sqrt (remaining x D r c)
  else if (c =? r)%nat then sqrt (remaining x D r r)
  else 0.

(** [big_sum f n] is [f 0 + ... + f (n-1)]. *)
Fixpoint big_sum (f : nat -> R) (n : nat) : R :=
  match n with
  | O => 0
  | S n' => big_sum f n' + f n'
  end.

(** The state of the loop of [_call] after the columns [0 .. j] are filled. *)
Definition call_inv (x : list R) (D j : nat)
  (st : PartialCorrToCorrLCholeskyTransform.call_state) : Prop :=
  wf (PartialCorrToCorrLCholeskyTransform.cs_y st) /\
  shape0 (PartialCorrToCorrLCholeskyTransform.cs_y st) = D /\
  shape1 (PartialCorrToCorrLCholeskyTransform.cs_y st) = D /\
  (forall r c, (r < D)%nat -> (c < D)%nat ->
     item (PartialCorrToCorrLCholeskyTransform.cs_y st) r c =
     if (c <=? j)%nat then cell x D r c else 0) /\
  PartialCorrToCorrLCholeskyTransform.cs_i st = offset D (S j) /\
  length (PartialCorrToCorrLCholeskyTransform.cs_last_squared_y st)
  = (D - j)%nat /\
  (forall k, (k < D - j)%nat ->
     nth k (PartialCorrToCorrLCholeskyTransform.cs_last_squared_y st) 0 =
     1 - remaining x D (j + k) j).

(** The part of [x] that column [j] of the matrix consumes. *)
Definition block (x : list R) (D j : nat) : list R :=
  slice (offset D j) (offset D (S j)) x.

(** [z_tri] in [_inverse] after the iterations [i = 2 .. m + 1]. *)
Definition inverse_inv (x : list R) (D m : nat) (z : Tensor2) : Prop :=
  wf z /\ shape0 z = (D - 2)%nat /\ shape1 z = (D - 2)%nat /\
  forall a k, (a < m)%nat -> (k <= a)%nat ->
    item z a k = partial x D (a + 2) (S k).

(** Every entry lies in the open interval (-1, 1). *)
Definition interior (x : list R) : Prop := Forall (fun v => -1 < v < 1) x.

(** The sum of the squared entries of row [r] of [y] off its diagonal. *)
Definition offdiag_sumsq (y : Tensor2) (r : nat) : R :=
  big_sum (fun c => if (c =? r)%nat then 0 else item y r c ^ 2) (shape1 y).

(** The normalizer as the specification writes it, with the last index of
    its sum left open: [(d-1) lgamma(eta + (d-1)/2)] minus the sum over
    [k = 1 .. upper] of [k log(pi)/2 + lgamma(eta + (d-1-k)/2)]. *)
Definition lkj_constant_formula (upper : nat) (eta : R) (d : nat) : R :=
  INR (d - 1) * lgamma (eta + INR (d - 1) / 2)
  - big_sum (fun i => INR (S i) * ln PI / 2
                     + lgamma (eta + (INR (d - 1) - INR (S i)) / 2)) upper.

(** Sample inputs: the instance for [d = 2], [eta = 1] as [__init__] leaves
    it, a 2 x 2 factor, and 3 x 2 and 2 x 3 matrices. *)
Definition prior_2_1 : CorrLCholeskyLKJPrior.t :=
  CorrLCholeskyLKJPrior.mk [1] 1 2 None.

Definition factor_2x2 : Tensor2 := mkTensor2 2 2 [[1; 0]; [0.6; 0.8]].

Definition matrix_3x2 : Tensor2 := mkTensor2 3 2 [[1; 0]; [0.6; 0.8]; [0; 1]].

Definition matrix_2x3 : Tensor2 := mkTensor2 2 3 [[1; 0; 0]; [0.6; 0.8; 0]].

(** The instance for [d = 3], [eta = 2] as [__init__] leaves it, a
    lower-triangular 3 x 3 matrix with diagonal 0.5, 0.25, 1, and a 3 x 3
    matrix of the support. *)
Definition prior_3_2 : CorrLCholeskyLKJPrior.t :=
  CorrLCholeskyLKJPrior.mk [2.5; 2.5; 2] 2 3 None.

Definition lower_3x3 : Tensor2 :=
  mkTensor2 3 3 [[0.5; 0; 0]; [0.3; 0.25; 0]; [-0.1; 0.2; 1]].

Definition factor_3x3 : Tensor2 :=
  mkTensor2 3 3 [[1; 0; 0]; [0.6; 0.8; 0]; [0; 0.6; 0.8]].

(** The sum of the squares of the entries of row [r] left of column [c]. *)
Definition sumsq_before (y : Tensor2) (r c : nat) : R :=
  big_sum (fun c' => item y r c' ^ 2) c.

(** The partial correlation that [_inverse] recovers from entry [(r, c)]. *)
Definition inverse_entry (y : Tensor2) (r c : nat) : R :=
  item y r c / sqrt (1 - sumsq_before y r c).

(** The part of the result of [_inverse] that comes from column [j]. *)
Definition inverse_block (y : Tensor2) (D j : nat) : list R :=
  tabulate (D - 1 - j) (fun k => inverse_entry y (j + 1 + k) j).

(** [z_tri] in [_inverse], on any matrix, after the iterations
    [i = 2 .. m + 1]. *)
Definition inverse_loop_inv (y : Tensor2) (D m : nat) (z : Tensor2) : Prop :=
  wf z /\ shape0 z = (D - 2)%nat /\ shape1 z = (D - 2)%nat /\
  forall a k, (a < m)%nat -> (k <= a)%nat ->
    item z a k = inverse_entry y (a + 2) (S k).

(** The support of the distribution, exactly: a [D x D] lower-triangular
    matrix with a positive diagonal and rows of Euclidean norm 1. *)
Definition in_support (D : nat) (y : Tensor2) : Prop :=
  wf y /\ shape0 y = D /\ shape1 y = D /\
  (forall r c, (r < c)%nat -> (c < D)%nat -> item y r c = 0) /\
  (forall r, (r < D)%nat -> 0 < item y r r) /\
  (forall r, (r < D)%nat -> norm (row y r) = 1).


(** ** Facts about the array operations *)

Section ArrayFacts.

Lemma length_tabulate (A : Type) (n : nat) (f : nat -> A) :
  length (tabulate n f) = n.
Proof. unfold tabulate. now rewrite length_map, length_seq. Qed.

Lemma nth_tabulate (A : Type) (n : nat) (f : nat -> A) (k : nat) (d : A) :
  (k < n)%nat -> nth k (tabulate n f) d = f k.
Proof.
  intros Hk. unfold tabulate.
  rewrite (nth_indep _ d (f O)) by now rewrite length_map, length_seq.
  rewrite map_nth, seq_nth by exact Hk. reflexivity.
Qed.

Lemma length_map2 (f : R -> R -> R) (a b : list R) :
  length (map2 f a b) = Nat.min (length a) (length b).
Proof.
  revert b. induction a as [|u a IH]; intros [|v b]; simpl; auto.
Qed.

Lemma nth_map2 (f : R -> R -> R) (a b : list R) (k : nat) :
  (k < length a)%nat -> (k < length b)%nat ->
  nth k (map2 f a b) 0 = f (nth k a 0) (nth k b 0).
Proof.
  revert b k. induction a as [|u a IH]; intros [|v b] k Ha Hb;
    simpl in *; try lia.
  destruct k as [|k]; [reflexivity|]. apply IH; lia.
Qed.

Lemma nth_map_R (f : R -> R) (l : list R) (k : nat) :
  (k < length l)%nat -> nth k (map f l) 0 = f (nth k l 0).
Proof.
  intros Hk. rewrite (nth_indep _ 0 (f 0)) by now rewrite length_map.
  apply map_nth.
Qed.

Lemma length_slice (lo hi : nat) (l : list R) :
  (hi <= length l)%nat -> length (slice lo hi l) = (hi - lo)%nat.
Proof.
  intros H. unfold slice. rewrite length_firstn, length_skipn. lia.
Qed.

Lemma nth_slice (lo hi : nat) (l : list R) (k : nat) :
  (k < hi - lo)%nat -> nth k (slice lo hi l) 0 = nth (lo + k) l 0.
Proof.
  intros H. unfold slice. rewrite nth_firstn.
  apply Nat.ltb_lt in H. rewrite H. apply nth_skipn.
Qed.

Lemma length_upd (c : nat) (v : R) (l : list R) :
  length (upd c v l) = length l.
Proof. apply length_tabulate. Qed.

Lemma nth_upd (c : nat) (v : R) (l : list R) (k : nat) :
  (k < length l)%nat ->
  nth k (upd c v l) 0 = if (k =? c)%nat then v else nth k l 0.
Proof. intros H. unfold upd. now rewrite nth_tabulate. Qed.

Lemma row_set_rows (y : Tensor2) (f : nat -> list R -> list R) (r : nat) :
  (r < shape0 y)%nat -> row (set_rows y f) r = f r (row y r).
Proof.
  intros H. unfold row at 1, set_rows; simpl. now rewrite nth_tabulate.
Qed.

Lemma wf_set_rows (y : Tensor2) (f : nat -> list R -> list R) :
  wf y -> (forall r l, length (f r l) = length l) -> wf (set_rows y f).
Proof.
  intros [H0 H1] Hf. split; simpl.
  - apply length_tabulate.
  - intros r Hr. rewrite nth_tabulate by exact Hr. rewrite Hf. now apply H1.
Qed.

Lemma wf_zeros2 (r c : nat) : wf (zeros2 r c).
Proof.
  split; simpl.
  - apply repeat_length.
  - intros k Hk. rewrite nth_repeat_lt by exact Hk. unfold zeros.
    apply repeat_length.
Qed.

Lemma item_zeros2 (r c i j : nat) : item (zeros2 r c) i j = 0.
Proof.
  unfold item, row, zeros2, zeros; simpl.
  destruct (Nat.lt_ge_cases i r) as [H|H].
  - rewrite nth_repeat_lt by exact H. apply nth_repeat.
  - rewrite (nth_overflow (repeat (repeat 0 c) r))
      by (rewrite repeat_length; exact H).
    now destruct j.
Qed.

Lemma length_row (y : Tensor2) (r : nat) :
  wf y -> (r < shape0 y)%nat -> length (row y r) = shape1 y.
Proof. intros [_ H] Hr. now apply H. Qed.

Lemma wf_set_item (y : Tensor2) (r c : nat) (v : R) :
  wf y -> wf (set_item y r c v).
Proof.
  intros H. apply wf_set_rows; [exact H|].
  intros r' l. destruct (r' =? r)%nat; [apply length_upd | reflexivity].
Qed.

Lemma wf_set_col_from (y : Tensor2) (lo c : nat) (vals : list R) :
  wf y -> wf (set_col_from y lo c vals).
Proof.
  intros H. apply wf_set_rows; [exact H|].
  intros r l. destruct (lo <=? r)%nat; [apply length_upd | reflexivity].
Qed.

Lemma wf_set_row_slice (y : Tensor2) (r lo hi : nat) (vals : list R) :
  wf y -> wf (set_row_slice y r lo hi vals).
Proof.
  intros H. apply wf_set_rows; [exact H|].
  intros r' l. destruct (r' =? r)%nat; [apply length_tabulate | reflexivity].
Qed.

Lemma item_set_item (y : Tensor2) (r c : nat) (v : R) (i j : nat) :
  wf y -> (i < shape0 y)%nat -> (j < shape1 y)%nat ->
  item (set_item y r c v) i j =
  if ((i =? r) && (j =? c))%nat then v else item y i j.
Proof.
  intros Hwf Hi Hj. unfold item, set_item. rewrite row_set_rows by exact Hi.
  destruct (i =? r)%nat; simpl; [|reflexivity].
  apply nth_upd. now rewrite length_row.
Qed.

Lemma item_set_col_from (y : Tensor2) (lo c : nat) (vals : list R) (i j : nat) :
  wf y -> (i < shape0 y)%nat -> (j < shape1 y)%nat ->
  item (set_col_from y lo c vals) i j =
  if ((lo <=? i) && (j =? c))%nat then nth (i - lo) vals 0 else item y i j.
Proof.
  intros Hwf Hi Hj. unfold item, set_col_from. rewrite row_set_rows by exact Hi.
  destruct (lo <=? i)%nat; simpl; [|reflexivity].
  apply nth_upd. now rewrite length_row.
Qed.

Lemma item_set_row_slice (y : Tensor2) (r lo hi : nat) (vals : list R)
      (i j : nat) :
  wf y -> (i < shape0 y)%nat -> (j < shape1 y)%nat ->
  item (set_row_slice y r lo hi vals) i j =
  if ((i =? r) && ((lo <=? j) && (j <? hi)))%nat
  then nth (j - lo) vals 0 else item y i j.
Proof.
  intros Hwf Hi Hj. unfold item, set_row_slice.
  rewrite row_set_rows by exact Hi.
  destruct (i =? r)%nat; simpl; [|reflexivity].
  rewrite nth_tabulate by now rewrite length_row. reflexivity.
Qed.

Lemma length_col_from (y : Tensor2) (lo c : nat) :
  wf y -> length (col_from y lo c) = (shape0 y - lo)%nat.
Proof.
  intros [H _]. unfold col_from. now rewrite length_map, length_skipn, H.
Qed.

Lemma nth_col_from (y : Tensor2) (lo c k : nat) :
  wf y -> (lo + k < shape0 y)%nat ->
  nth k (col_from y lo c) 0 = item y (lo + k) c.
Proof.
  intros [H _] Hk. unfold col_from, item, row.
  rewrite (nth_indep _ 0 (nth c [] 0)).
  - rewrite (map_nth (fun l : list R => nth c l 0) (skipn lo (rows y)) [] k).
    now rewrite nth_skipn.
  - rewrite length_map, length_skipn, H. lia.
Qed.

End ArrayFacts.

(** ** The loop of [_call] computes [cell] *)

Section CallFacts.

Import PartialCorrToCorrLCholeskyTransform.

Variable x : list R.
Variable D : nat.

Lemma offset_le (j k : nat) : (j <= k)%nat -> (offset D j <= offset D k)%nat.
Proof.
  induction 1 as [|k _ IH]; [reflexivity|]. simpl. lia.
Qed.

Lemma offset_closed (j : nat) :
  (j <= D)%nat -> (2 * offset D j + j * j + j = 2 * D * j)%nat.
Proof.
  induction j as [|j IH]; intros Hj; simpl; [lia|].
  assert (IH' := IH ltac:(lia)). nia.
Qed.

Lemma offset_total : (2 * offset D D = D * (D - 1))%nat.
Proof.
  pose proof (offset_closed (j := D) (le_n D)) as H.
  destruct D as [|n]; [reflexivity|].
  replace (S n - 1)%nat with n by lia. nia.
Qed.

Lemma offset_last : offset D (D - 1) = offset D D.
Proof.
  destruct D as [|n]; [reflexivity|].
  replace (S n - 1)%nat with n by lia. simpl. lia.
Qed.

Lemma remaining_S (r c : nat) :
  remaining x D r (S c) =
  remaining x D r c - (partial x D r c * sqrt (remaining x D r c)) ^ 2.
Proof. reflexivity. Qed.

Hypothesis D_pos : (1 <= D)%nat.
Hypothesis x_length : length x = offset D D.

Lemma call_inv_init : call_inv x D 0 (call_init x D).
Proof.
  assert (Hwf1 : wf (set_item (zeros2 D D) 0 0 1))
    by apply wf_set_item, wf_zeros2.
  unfold call_inv, call_init.
  cbv beta iota zeta delta [cs_y cs_i cs_last_squared_y].
  refine (conj _ (conj _ (conj _ (conj _ (conj _ (conj _ _)))))).
  - now apply wf_set_col_from.
  - reflexivity.
  - reflexivity.
  - intros r c Hr Hc.
    rewrite item_set_col_from by (try exact Hwf1; simpl; assumption).
    rewrite item_set_item by (try apply wf_zeros2; simpl; assumption).
    rewrite item_zeros2. unfold cell, partial.
    destruct c as [|c].
    + destruct r as [|r]; simpl.
      * now rewrite sqrt_1.
      * rewrite nth_slice by lia. rewrite sqrt_1, Nat.sub_0_r. simpl. lra.
    + replace (S c =? 0)%nat with false by reflexivity.
      rewrite !andb_false_r. simpl. now destruct (S c <? r)%nat.
  - simpl. lia.
  - unfold zeros. now rewrite repeat_length, Nat.sub_0_r.
  - intros k _. unfold zeros. rewrite nth_repeat. simpl. lra.
Qed.

Lemma call_inv_step (j : nat) (st : call_state) :
  (S j < D)%nat -> call_inv x D j st ->
  call_inv x D (S j) (call_body x D st (S j)).
Proof.
  intros Hj (Hwf & Hs0 & Hs1 & Hitem & Hi & Hlen & Hlsq).
  unfold call_body. replace (S j - 1)%nat with j by lia.
  set (lsq := vadd (slice_from 1 (cs_last_squared_y st))
                   (map (fun v => v ^ 2) (col_from (cs_y st) (S j) j))).
  assert (Hlen' : length lsq = (D - S j)%nat).
  { unfold lsq, vadd, slice_from.
    rewrite length_map2, length_map, length_skipn, length_col_from, Hlen, Hs0
      by exact Hwf. lia. }
  assert (Hlsq' : forall k, (k < D - S j)%nat ->
            nth k lsq 0 = 1 - remaining x D (S j + k) (S j)).
  { intros k Hk. unfold lsq, vadd, slice_from.
    rewrite nth_map2.
    2: rewrite length_skipn, Hlen; lia.
    2: rewrite length_map, length_col_from, Hs0 by exact Hwf; lia.
    rewrite nth_skipn, Hlsq by lia.
    rewrite nth_map_R by (rewrite length_col_from, Hs0 by exact Hwf; lia).
    rewrite nth_col_from by (try exact Hwf; lia).
    rewrite Hitem by lia. rewrite Nat.leb_refl.
    unfold cell. replace (j <? S j + k)%nat with true
      by (symmetry; apply Nat.ltb_lt; lia).
    replace (j + (1 + k))%nat with (S j + k)%nat by lia.
    rewrite remaining_S. lra. }
  set (y1 := set_item (cs_y st) (S j) (S j) (sqrt (1 - nth 0 lsq 0))).
  assert (Hwf1 : wf y1) by now apply wf_set_item.
  set (vals := vmul _ _).
  assert (Hvals : forall k, (k < D - 1 - S j)%nat ->
            nth k vals 0 =
            partial x D (S j + 1 + k) (S j)
            * sqrt (remaining x D (S j + 1 + k) (S j))).
  { intros k Hk. unfold vals, vmul, slice_from.
    pose proof (@offset_le (S (S j)) D ltac:(lia)) as Hoff.
    simpl in Hoff.
    rewrite nth_map2.
    2: rewrite length_slice; rewrite Hi; simpl; lia.
    2: rewrite length_map, length_skipn, Hlen'; lia.
    rewrite nth_slice by lia.
    rewrite nth_map_R by (rewrite length_skipn, Hlen'; lia).
    rewrite nth_skipn, Hlsq' by lia. rewrite Hi. unfold partial.
    replace (S j + 1 + k - S j - 1)%nat with k by lia.
    replace (S j + (1 + k))%nat with (S j + 1 + k)%nat by lia.
    f_equal. f_equal. lra. }
  unfold call_inv.
  cbv beta iota zeta delta [cs_y cs_i cs_last_squared_y].
  refine (conj _ (conj _ (conj _ (conj _ (conj _ (conj _ _)))))).
  - now apply wf_set_col_from.
  - exact Hs0.
  - exact Hs1.
  - intros r c Hr Hc.
    rewrite item_set_col_from by (try exact Hwf1; simpl; lia).
    unfold y1. rewrite item_set_item by (try exact Hwf; lia).
    rewrite Hitem by assumption.
    destruct (Nat.eq_dec c (S j)) as [->|Hne].
    + rewrite Nat.eqb_refl, Nat.leb_refl, !andb_true_r.
      replace (S j <=? j)%nat with false by (symmetry; apply Nat.leb_gt; lia).
      destruct (Nat.leb_spec (S j + 1) r) as [Hlo|Hlo].
      * rewrite Hvals by lia.
        replace (S j + 1 + (r - (S j + 1)))%nat with r by lia.
        unfold cell. replace (S j <? r)%nat with true
          by (symmetry; apply Nat.ltb_lt; lia). reflexivity.
      * unfold cell.
        replace (S j <? r)%nat with false by (symmetry; apply Nat.ltb_ge; lia).
        destruct (Nat.eqb_spec r (S j)) as [->|Hr'].
        -- rewrite Nat.eqb_refl. rewrite Hlsq' by lia.
           rewrite Nat.add_0_r. f_equal. lra.
        -- replace (S j =? r)%nat with false
             by (symmetry; apply Nat.eqb_neq; lia). reflexivity.
    + replace (c =? S j)%nat with false by (symmetry; now apply Nat.eqb_neq).
      rewrite !andb_false_r.
      destruct (Nat.leb_spec c j) as [H1|H1].
      * replace (c <=? S j)%nat with true by (symmetry; apply Nat.leb_le; lia).
        reflexivity.
      * replace (c <=? S j)%nat with false by (symmetry; apply Nat.leb_gt; lia).
        reflexivity.
  - change (cs_i st + (D - 1 - S j) = offset D (S (S j)))%nat.
    rewrite Hi. simpl. lia.
  - exact Hlen'.
  - exact Hlsq'.
Qed.

(** The vectors that one iteration adds, multiplies and stores fit. *)
Lemma call_shapes_agree (j : nat) (st : call_state) :
  (S j < D)%nat -> call_inv x D j st ->
  let distance_to_copy := (D - 1 - S j)%nat in
  let last_squared_y := cs_last_squared_y (call_body x D st (S j)) in
  length (slice_from 1 (cs_last_squared_y st))
  = length (col_from (cs_y st) (S j) j) /\
  length (slice (cs_i st) (cs_i st + distance_to_copy) x) = distance_to_copy /\
  length (slice_from 1 last_squared_y) = distance_to_copy /\
  (shape0 (cs_y st) - (S j + 1))%nat = distance_to_copy.
Proof.
  intros Hj Hinv.
  destruct (call_inv_step Hj Hinv) as (_ & _ & _ & _ & _ & Hlen' & _).
  destruct Hinv as (Hwf & Hs0 & _ & _ & Hi & Hlen & _).
  pose proof (@offset_le (S (S j)) D ltac:(lia)) as Hoff. simpl in Hoff.
  cbv zeta. unfold slice_from.
  rewrite !length_skipn, Hlen, Hlen', length_col_from, Hs0 by exact Hwf.
  rewrite length_slice by (rewrite Hi; simpl; lia).
  repeat split; lia.
Qed.

Lemma call_inv_loop (n : nat) :
  (n <= D - 1)%nat ->
  call_inv x D n (fold_left (call_body x D) (seq 1 n) (call_init x D)).
Proof.
  induction n as [|n IH]; intros Hn.
  - apply call_inv_init.
  - rewrite seq_S, fold_left_app. simpl.
    apply call_inv_step; [lia | apply IH; lia].
Qed.

End CallFacts.

(** ** Sums, and the size of the input *)

Section SumFacts.

Lemma big_sum_ext (f g : nat -> R) (n : nat) :
  (forall k, (k < n)%nat -> f k = g k) -> big_sum f n = big_sum g n.
Proof.
  induction n as [|n IH]; intros H; simpl; [reflexivity|].
  rewrite IH by (intros; apply H; lia). rewrite H by lia. reflexivity.
Qed.

Lemma big_sum_shift (f : nat -> R) (n : nat) :
  big_sum f (S n) = f O + big_sum (fun k => f (S k)) n.
Proof.
  induction n as [|n IH]; [simpl; lra|].
  change (big_sum f (S (S n))) with (big_sum f (S n) + f (S n)).
  rewrite IH. simpl. lra.
Qed.

Lemma vsum_big_sum (l : list R) :
  vsum l = big_sum (fun k => nth k l 0) (length l).
Proof.
  induction l as [|a l IH]; [reflexivity|].
  change (length (a :: l)) with (S (length l)).
  rewrite big_sum_shift. simpl. now rewrite IH.
Qed.

Lemma triangle_size (d : nat) : (d * (d - 1) / 2 = offset d d)%nat.
Proof.
  rewrite <- offset_total, Nat.mul_comm. apply Nat.div_mul. discriminate.
Qed.

Lemma dimension_of_size (d : nat) :
  (1 <= d)%nat ->
  PartialCorrToCorrLCholeskyTransform.dimension (offset d d) = Ok d.
Proof.
  intros Hd. unfold PartialCorrToCorrLCholeskyTransform.dimension.
  pose proof (offset_total d) as Ht.
  replace (1 + 8 * offset d d)%nat with ((2 * d - 1) * (2 * d - 1))%nat by nia.
  cbv zeta. rewrite Nat.sqrt_square, Nat.eqb_refl.
  replace (1 + (2 * d - 1))%nat with (d * 2)%nat by lia.
  now rewrite Nat.div_mul.
Qed.

Lemma interior_nth (x : list R) (k : nat) :
  interior x -> -1 < nth k x 0 < 1.
Proof.
  intros H. destruct (Nat.lt_ge_cases k (length x)) as [Hk|Hk].
  - unfold interior in H. rewrite Forall_forall in H.
    apply H, nth_In, Hk.
  - rewrite nth_overflow by exact Hk. lra.
Qed.

Lemma remaining_pos (x : list R) (D r c : nat) :
  interior x -> 0 < remaining x D r c.
Proof.
  intros H. induction c as [|c IH]; simpl; [lra|].
  pose proof (interior_nth (offset D c + (r - c - 1)) H) as Hp.
  fold (partial x D r c) in Hp.
  pose proof (sqrt_sqrt _ (Rlt_le _ _ IH)) as Hs.
  set (p := partial x D r c) in *. set (s := sqrt (remaining x D r c)) in *.
  replace (p * s * (p * s * 1)) with (p * p * (s * s)) by ring.
  rewrite Hs.
  assert (Hpp : 0 < 1 - p * p) by nra.
  pose proof (Rmult_lt_0_compat _ _ IH Hpp). nra.
Qed.

Lemma cell_sumsq_below (x : list R) (D r n : nat) :
  (n <= r)%nat ->
  big_sum (fun c => cell x D r c ^ 2) n = 1 - remaining x D r n.
Proof.
  induction n as [|n IH]; intros Hn; [simpl; lra|].
  change (big_sum (fun c => cell x D r c ^ 2) (S n))
    with (big_sum (fun c => cell x D r c ^ 2) n + cell x D r n ^ 2).
  rewrite IH by lia. rewrite remaining_S. unfold cell.
  replace (n <? r)%nat with true by (symmetry; apply Nat.ltb_lt; lia). lra.
Qed.

Lemma cell_sumsq_row (x : list R) (D r n : nat) :
  interior x -> (r < n)%nat -> big_sum (fun c => cell x D r c ^ 2) n = 1.
Proof.
  intros Hx. induction n as [|n IH]; intros Hn; [lia|].
  change (big_sum (fun c => cell x D r c ^ 2) (S n))
    with (big_sum (fun c => cell x D r c ^ 2) n + cell x D r n ^ 2).
  destruct (Nat.eq_dec r n) as [->|Hne].
  - rewrite cell_sumsq_below by lia. unfold cell.
    rewrite Nat.ltb_irrefl, Nat.eqb_refl.
    pose proof (sqrt_sqrt _ (Rlt_le _ _ (remaining_pos D n n Hx))) as Hs.
    set (s := sqrt (remaining x D n n)) in *.
    replace (s ^ 2) with (s * s) by ring. rewrite Hs. lra.
  - rewrite IH by lia. unfold cell.
    replace (n <? r)%nat with false by (symmetry; apply Nat.ltb_ge; lia).
    replace (n =? r)%nat with false by (symmetry; apply Nat.eqb_neq; lia).
    lra.
Qed.

End SumFacts.

(** ** What [_call] returns *)

Section CallResult.

Import PartialCorrToCorrLCholeskyTransform.

Lemma call_cells (d : nat) (x : list R) :
  (1 <= d)%nat -> length x = (d * (d - 1) / 2)%nat ->
  exists y, _call x = Ok y /\ wf y /\ shape0 y = d /\ shape1 y = d /\
            forall r c, (r < d)%nat -> (c < d)%nat -> item y r c = cell x d r c.
Proof.
  intros Hd Hlen. rewrite triangle_size in Hlen.
  unfold _call. rewrite Hlen, dimension_of_size by exact Hd.
  cbv beta iota delta [bind].
  destruct (@call_inv_loop x d Hd Hlen (d - 1)%nat (le_n _))
    as (Hwf & Hs0 & Hs1 & Hitem & _).
  eexists. split; [reflexivity|].
  repeat split; try assumption; try apply Hwf.
  intros r c Hr Hc. rewrite Hitem by assumption.
  replace (c <=? d - 1)%nat with true by (symmetry; apply Nat.leb_le; lia).
  reflexivity.
Qed.

End CallResult.

(** ** [_inverse] undoes [cell] *)

Section InverseFacts.

Import PartialCorrToCorrLCholeskyTransform.

Lemma length_cumsum_from (acc : R) (l : list R) :
  length (cumsum_from acc l) = length l.
Proof.
  revert acc. induction l as [|a l IH]; intros acc; simpl; [reflexivity|].
  now rewrite IH.
Qed.

Lemma nth_cumsum_from (l : list R) (acc : R) (k : nat) :
  (k < length l)%nat ->
  nth k (cumsum_from acc l) 0 = acc + big_sum (fun c => nth c l 0) (S k).
Proof.
  revert acc k. induction l as [|a l IH]; intros acc k Hk; simpl in Hk; [lia|].
  destruct k as [|k].
  - simpl. lra.
  - change (nth (S k) (cumsum_from acc (a :: l)) 0)
      with (nth k (cumsum_from (acc + a) l) 0).
    rewrite IH by lia. rewrite (big_sum_shift _ (S k)). simpl. lra.
Qed.

Lemma firstn_then_firstn (a b : nat) (l : list R) :
  firstn a l ++ firstn b (skipn a l) = firstn (a + b) l.
Proof.
  revert l. induction a as [|a IH]; intros l; [reflexivity|].
  destruct l as [|h t]; simpl.
  - now rewrite firstn_nil.
  - now rewrite IH.
Qed.

Variable x : list R.
Variable D : nat.

Lemma concat_blocks (n : nat) :
  concat (map (block x D) (seq 0 n)) = firstn (offset D n) x.
Proof.
  induction n as [|n IH]; [reflexivity|].
  rewrite seq_S, map_app, concat_app, IH. simpl.
  rewrite app_nil_r. unfold block, slice.
  rewrite firstn_then_firstn. f_equal. simpl. lia.
Qed.

Variable y : Tensor2.

Hypothesis D_ge_2 : (2 <= D)%nat.
Hypothesis x_length : length x = offset D D.
Hypothesis x_interior : interior x.
Hypothesis y_wf : wf y.
Hypothesis y_shape0 : shape0 y = D.
Hypothesis y_shape1 : shape1 y = D.
Hypothesis y_cells :
  forall r c, (r < D)%nat -> (c < r)%nat -> item y r c = cell x D r c.

Lemma length_block (j : nat) :
  (S j <= D)%nat -> length (block x D j) = (D - 1 - j)%nat.
Proof.
  intros Hj. unfold block. rewrite length_slice.
  - simpl. lia.
  - rewrite x_length. now apply offset_le.
Qed.

Lemma nth_block (j k : nat) :
  (k < D - 1 - j)%nat -> nth k (block x D j) 0 = nth (offset D j + k) x 0.
Proof.
  intros Hk. unfold block. apply nth_slice. simpl. lia.
Qed.

(** The values that iteration [i] of the first loop writes into [z_tri]. *)
Lemma inverse_row_values (i k : nat) :
  (2 <= i)%nat -> (i < D)%nat -> (k < i - 1)%nat ->
  nth k (vdiv (row_slice y i 1 i)
          (map (fun v => sqrt (1 - v))
             (cumsum (map (fun v => v ^ 2) (row_slice y i 0 (i - 1)))))) 0
  = partial x D i (S k).
Proof.
  intros Hi2 HiD Hk.
  assert (Hrow : length (row y i) = D)
    by (rewrite length_row; [exact y_shape1 | exact y_wf | lia]).
  assert (Hl0 : length (row_slice y i 0 (i - 1)) = (i - 1)%nat)
    by (unfold row_slice; rewrite length_slice; lia).
  unfold vdiv, cumsum. rewrite nth_map2.
  2: unfold row_slice; rewrite length_slice; lia.
  2: rewrite length_map, length_cumsum_from, length_map, Hl0; lia.
  rewrite nth_map_R by (rewrite length_cumsum_from, length_map, Hl0; lia).
  rewrite nth_cumsum_from by (rewrite length_map, Hl0; lia).
  unfold row_slice at 1. rewrite nth_slice by lia.
  change (nth (1 + k) (row y i) 0) with (item y i (S k)).
  rewrite y_cells by lia.
  rewrite (big_sum_ext _ (fun c => cell x D i c ^ 2)).
  - rewrite cell_sumsq_below by lia. unfold cell.
    replace (S k <? i)%nat with true by (symmetry; apply Nat.ltb_lt; lia).
    pose proof (sqrt_lt_R0 _ (remaining_pos D i (S k) x_interior)) as Hs.
    replace (1 - (0 + (1 - remaining x D i (S k))))
      with (remaining x D i (S k)) by lra.
    field. lra.
  - intros c Hc. rewrite nth_map_R by (rewrite Hl0; lia).
    unfold row_slice. rewrite nth_slice by lia.
    change (nth (0 + c) (row y i) 0) with (item y i c).
    now rewrite y_cells by lia.
Qed.

Lemma inverse_inv_loop (m : nat) :
  (m <= D - 2)%nat ->
  inverse_inv x D m
    (fold_left (inverse_body y) (seq 2 m) (zeros2 (D - 2) (D - 2))).
Proof.
  induction m as [|m IH]; intros Hm.
  - simpl. repeat split; try apply wf_zeros2. intros a k Ha. lia.
  - rewrite seq_S, fold_left_app. simpl fold_left.
    destruct (IH ltac:(lia)) as (Hwf & Hs0 & Hs1 & Hz).
    set (z := fold_left _ _ _) in *.
    unfold inverse_body.
    replace (S (S m) - 2)%nat with m by lia.
    refine (conj _ (conj _ (conj _ _))).
    + now apply wf_set_row_slice.
    + exact Hs0.
    + exact Hs1.
    + intros a k Ha Hk.
      rewrite item_set_row_slice by (try exact Hwf; lia).
      destruct (Nat.eq_dec a m) as [->|Hne].
      * rewrite Nat.eqb_refl.
        replace (k <? S (S m) - 1)%nat with true
          by (symmetry; apply Nat.ltb_lt; lia).
        cbv beta iota delta [andb Nat.leb]. rewrite Nat.sub_0_r.
        rewrite inverse_row_values by lia. f_equal. lia.
      * replace (a =? m)%nat with false by (symmetry; now apply Nat.eqb_neq).
        apply Hz; lia.
Qed.

Lemma inverse_of_cells : _inverse y = Ok x.
Proof.
  unfold _inverse. rewrite y_shape0, y_shape1, Nat.eqb_refl.
  replace (D <? 2)%nat with false by (symmetry; apply Nat.ltb_ge; lia).
  cbv beta iota zeta delta [negb]. f_equal.
  destruct (@inverse_inv_loop (D - 2)%nat (le_n _)) as (Hwf & Hs0 & Hs1 & Hz).
  set (z := fold_left _ _ _) in *.
  assert (H0 : col_from y 1 0 = block x D 0).
  { apply (nth_ext _ _ 0 0).
    - rewrite length_col_from, length_block, y_shape0 by (try exact y_wf; lia).
      lia.
    - intros k Hk.
      rewrite length_col_from, y_shape0 in Hk by exact y_wf.
      rewrite nth_col_from, nth_block by (try exact y_wf; lia).
      rewrite y_cells by lia. unfold cell, partial. simpl.
      rewrite sqrt_1, Nat.sub_0_r. lra. }
  assert (Hj : forall j, In j (seq 0 (D - 2)) ->
                         col_from z j j = block x D (S j)).
  { intros j Hin. apply in_seq in Hin.
    apply (nth_ext _ _ 0 0).
    - rewrite length_col_from, length_block, Hs0 by (try exact Hwf; lia).
      lia.
    - intros k Hk. rewrite length_col_from, Hs0 in Hk by exact Hwf.
      rewrite nth_col_from, nth_block by (try exact Hwf; lia).
      rewrite Hz by lia. unfold partial. f_equal. lia. }
  rewrite H0, (map_ext_in _ _ _ Hj).
  transitivity (concat (map (block x D) (seq 0 (S (D - 2))))).
  - simpl. now rewrite <- seq_shift, map_map.
  - rewrite concat_blocks.
    replace (S (D - 2)) with (D - 1)%nat by lia.
    rewrite offset_last, <- x_length. apply firstn_all.
Qed.

End InverseFacts.

(** ** _PartialCorrToCorrLCholeskyTransform: round trip and codomain *)

Section PartialCorrClaims.

Import PartialCorrToCorrLCholeskyTransform.

(** The scenario of the specification: [d = 2], [x = [0.5]]. *)
Example call_half :
  exists y, _call [0.5] = Ok y /\ shape0 y = 2%nat /\ shape1 y = 2%nat /\
            item y 0 0 = 1 /\ item y 0 1 = 0 /\
            item y 1 0 = 0.5 /\ item y 1 1 = sqrt 0.75.
Proof.
  eexists. split; [reflexivity|]. cbn.
  repeat split; try reflexivity. f_equal. lra.
Qed.

(** C1: for a vector [x] of partial correlations, all in (-1, 1), of length
    [d (d - 1) / 2] with [d >= 2], the inverse map applied to the result of
    the forward map gives [x] back, exactly over the reals. *)
Theorem inverse_call_round_trip (d : nat) (x : list R) :
  (2 <= d)%nat -> length x = (d * (d - 1) / 2)%nat -> interior x ->
  (y <- _call x ;; _inverse y) = Ok x.
Proof.
  intros Hd Hlen Hx.
  destruct (@call_cells d x ltac:(lia) Hlen) as (y & Hy & Hwf & Hs0 & Hs1 & Hc).
  rewrite Hy. cbv beta iota delta [bind].
  rewrite triangle_size in Hlen.
  apply (@inverse_of_cells x d y); try assumption.
  intros r c Hr Hcr. apply Hc; lia.
Qed.

Lemma inverse_call_round_trip_witness :
  (y <- _call [0.5; -0.25; 0.125] ;; _inverse y) = Ok [0.5; -0.25; 0.125].
Proof.
  apply (@inverse_call_round_trip 3); [lia | reflexivity |].
  repeat constructor; lra.
Defined.

(** C2: for [x] in (-1, 1)^(d (d - 1) / 2), every row of the matrix that the
    forward map returns has Euclidean norm 1 (exactly over the reals), and the
    matrix is lower triangular with a positive diagonal. *)
Theorem call_rows_unit_norm (d : nat) (x : list R) :
  (1 <= d)%nat -> length x = (d * (d - 1) / 2)%nat -> interior x ->
  exists y, _call x = Ok y /\ wf y /\ shape0 y = d /\ shape1 y = d /\
    (forall r, (r < d)%nat -> norm (row y r) = 1) /\
    (forall r c, (r < c)%nat -> (c < d)%nat -> item y r c = 0) /\
    (forall r, (r < d)%nat -> 0 < item y r r).
Proof.
  intros Hd Hlen Hx.
  destruct (@call_cells d x Hd Hlen) as (y & Hy & Hwf & Hs0 & Hs1 & Hc).
  exists y. repeat split; try assumption; try apply Hwf.
  - intros r Hr. unfold norm.
    assert (Hrow : length (row y r) = d)
      by (rewrite length_row; [exact Hs1 | exact Hwf | lia]).
    rewrite vsum_big_sum, length_map, Hrow.
    rewrite (big_sum_ext _ (fun c => cell x d r c ^ 2)).
    + rewrite cell_sumsq_row by assumption. apply sqrt_1.
    + intros c Hcd. rewrite nth_map_R by lia.
      change (nth c (row y r) 0) with (item y r c). now rewrite Hc.
  - intros r c Hrc Hcd. rewrite Hc by lia. unfold cell.
    replace (c <? r)%nat with false by (symmetry; apply Nat.ltb_ge; lia).
    replace (c =? r)%nat with false by (symmetry; apply Nat.eqb_neq; lia).
    reflexivity.
  - intros r Hr. rewrite Hc by lia. unfold cell.
    rewrite Nat.ltb_irrefl, Nat.eqb_refl.
    apply sqrt_lt_R0, remaining_pos, Hx.
Qed.

Lemma call_rows_unit_norm_witness :
  exists y, _call [0.5] = Ok y /\ wf y /\
    shape0 y = 2%nat /\ shape1 y = 2%nat /\
    (forall r, (r < 2)%nat -> norm (row y r) = 1) /\
    (forall r c, (r < c)%nat -> (c < 2)%nat -> item y r c = 0) /\
    (forall r, (r < 2)%nat -> 0 < item y r r).
Proof.
  apply (@call_rows_unit_norm 2 [0.5]); [lia | reflexivity |].
  repeat constructor; lra.
Defined.

End PartialCorrClaims.

(** ** The Jacobian of _PartialCorrToCorrLCholeskyTransform *)

Section JacobianFacts.

Import PartialCorrToCorrLCholeskyTransform.

Lemma vsum_tabulate (n : nat) (f : nat -> R) :
  vsum (tabulate n f) = big_sum f n.
Proof.
  rewrite vsum_big_sum, length_tabulate. apply big_sum_ext.
  intros k Hk. now apply nth_tabulate.
Qed.

Lemma row_eye_ne_1 (n r : nat) :
  (r < n)%nat ->
  row (eye_ne_1 n) r = tabulate n (fun c => if (r =? c)%nat then 0 else 1).
Proof. intros H. unfold row, eye_ne_1; simpl. now rewrite nth_tabulate. Qed.

(** On a square matrix the masked product leaves the off-diagonal entries. *)
Lemma log_abs_det_jacobian_square (x : option (list R)) (y : Tensor2) :
  wf y -> shape0 y = shape1 y ->
  log_abs_det_jacobian x y =
  Ok (0.5 * big_sum (fun r => ln (1 - offdiag_sumsq y r)) (shape0 y)).
Proof.
  intros Hwf Hsq. unfold log_abs_det_jacobian, mask_for.
  rewrite Hsq, Nat.eqb_refl. cbv beta iota delta [bind]. f_equal.
  rewrite Rmult_comm. f_equal. unfold tabulate at 1. rewrite map_map.
  fold (tabulate (shape1 y)
          (fun r =>
             ln (1 - vsum (map (fun v => v ^ 2)
                             (vmul (row y r)
                                   (row (eye_ne_1 (shape1 y)) r)))))).
  rewrite vsum_tabulate. apply big_sum_ext. intros r Hr.
  f_equal. f_equal. unfold offdiag_sumsq.
  assert (Hrow : length (row y r) = shape1 y)
    by (apply length_row; [exact Hwf | lia]).
  rewrite row_eye_ne_1 by exact Hr.
  rewrite vsum_big_sum, length_map. unfold vmul.
  rewrite length_map2, Hrow, length_tabulate, Nat.min_id.
  apply big_sum_ext. intros c Hc.
  rewrite nth_map_R
    by (rewrite length_map2, Hrow, length_tabulate, Nat.min_id; exact Hc).
  rewrite nth_map2 by (rewrite ?Hrow, ?length_tabulate; exact Hc).
  rewrite nth_tabulate by exact Hc.
  change (nth c (row y r) 0) with (item y r c).
  rewrite (Nat.eqb_sym r c). destruct (c =? r)%nat; ring.
Qed.

Lemma offdiag_cells (x : list R) (D r n : nat) :
  big_sum (fun c => if (c =? r)%nat then 0 else cell x D r c ^ 2) n =
  1 - remaining x D r (Nat.min n r).
Proof.
  induction n as [|n IH]; [simpl; lra|].
  change (big_sum (fun c => if (c =? r)%nat then 0 else cell x D r c ^ 2) (S n))
    with (big_sum (fun c => if (c =? r)%nat then 0 else cell x D r c ^ 2) n
          + (if (n =? r)%nat then 0 else cell x D r n ^ 2)).
  rewrite IH. unfold cell.
  destruct (Nat.lt_trichotomy n r) as [Hlt|[->|Hgt]].
  - replace (n =? r)%nat with false by (symmetry; apply Nat.eqb_neq; lia).
    replace (n <? r)%nat with true by (symmetry; apply Nat.ltb_lt; lia).
    replace (Nat.min n r) with n by lia.
    replace (Nat.min (S n) r) with (S n) by lia.
    rewrite remaining_S. lra.
  - rewrite Nat.eqb_refl.
    replace (Nat.min r r) with r by lia.
    replace (Nat.min (S r) r) with r by lia. lra.
  - replace (n =? r)%nat with false by (symmetry; apply Nat.eqb_neq; lia).
    replace (n <? r)%nat with false by (symmetry; apply Nat.ltb_ge; lia).
    replace (Nat.min n r) with r by lia.
    replace (Nat.min (S n) r) with r by lia. lra.
Qed.

(** C7: for [x] in (-1, 1)^(d (d - 1) / 2) and [y] the result of the forward
    map, [log_abs_det_jacobian(x, y)] is half the sum, over the rows of [y],
    of the logarithm of one minus the sum of the squared off-diagonal entries
    of the row; each logarithm is taken of a positive number, so the value is
    a finite real; and it is 0 when [d = 1]. *)
Theorem log_abs_det_jacobian_closed_form (d : nat) (x : list R) :
  (1 <= d)%nat -> length x = (d * (d - 1) / 2)%nat -> interior x ->
  exists y, _call x = Ok y /\
    log_abs_det_jacobian (Some x) y =
      Ok (0.5 * big_sum (fun r => ln (1 - offdiag_sumsq y r)) d) /\
    (forall r, (r < d)%nat -> 0 < 1 - offdiag_sumsq y r) /\
    (d = 1%nat -> log_abs_det_jacobian (Some x) y = Ok 0).
Proof.
  intros Hd Hlen Hx.
  destruct (@call_cells d x Hd Hlen) as (y & Hy & Hwf & Hs0 & Hs1 & Hc).
  assert (Hoff : forall r, (r < d)%nat ->
            offdiag_sumsq y r = 1 - remaining x d r r).
  { intros r Hr. unfold offdiag_sumsq. rewrite Hs1.
    rewrite (big_sum_ext _
               (fun c => if (c =? r)%nat then 0 else cell x d r c ^ 2)).
    - rewrite offdiag_cells. now replace (Nat.min d r) with r by lia.
    - intros c Hcd. now rewrite Hc. }
  assert (Hval : log_abs_det_jacobian (Some x) y =
                 Ok (0.5 * big_sum (fun r => ln (1 - offdiag_sumsq y r)) d)).
  { rewrite log_abs_det_jacobian_square by (try exact Hwf; congruence).
    now rewrite Hs0. }
  exists y. repeat split; try assumption.
  - intros r Hr. rewrite Hoff by exact Hr.
    pose proof (remaining_pos d r r Hx). lra.
  - intros ->. rewrite Hval. f_equal. simpl.
    rewrite Hoff by lia. simpl.
    replace (1 - (1 - 1)) with 1 by lra. rewrite ln_1. lra.
Qed.

Lemma log_abs_det_jacobian_closed_form_witness :
  exists y, _call [0.5] = Ok y /\
    log_abs_det_jacobian (Some [0.5]) y =
      Ok (0.5 * big_sum (fun r => ln (1 - offdiag_sumsq y r)) 2) /\
    (forall r, (r < 2)%nat -> 0 < 1 - offdiag_sumsq y r) /\
    (2%nat = 1%nat -> log_abs_det_jacobian (Some [0.5]) y = Ok 0).
Proof.
  apply (@log_abs_det_jacobian_closed_form 2 [0.5]); [lia | reflexivity |].
  repeat constructor; lra.
Defined.

(** C10: [log_abs_det_jacobian] of _PartialCorrToCorrLCholeskyTransform does
    not look at its first argument: any two first arguments, the placeholder
    [None] among them, give the same result on the same matrix; and the
    value that UnconstrainedToCorrLCholeskyTransform obtains by passing [None]
    is the one it would obtain by passing the intermediate vector. *)
Theorem log_abs_det_jacobian_ignores_x :
  (forall (x1 x2 : option (list R)) (y : Tensor2),
     log_abs_det_jacobian x1 y = log_abs_det_jacobian x2 y) /\
  (forall (u : list R) (y : Tensor2),
     UnconstrainedToCorrLCholeskyTransform.log_abs_det_jacobian u y =
     (inner <- log_abs_det_jacobian (Some (map tanh u)) y ;;
      Ok (vsum (map (fun v => ln (cosh v)) u) * (-2) + inner))).
Proof.
  split; intros; reflexivity.
Qed.

End JacobianFacts.

(** ** UnconstrainedToCorrLCholeskyTransform: round trip *)

Section UnconstrainedClaims.

Import UnconstrainedToCorrLCholeskyTransform.

Lemma tanh_as_exp (u : R) :
  tanh u = (exp u - exp (- u)) / (exp u + exp (- u)).
Proof.
  unfold tanh, sinh, cosh.
  pose proof (exp_pos u). pose proof (exp_pos (- u)). field. lra.
Qed.

Lemma tanh_interior (u : R) : -1 < tanh u < 1.
Proof.
  rewrite tanh_as_exp.
  pose proof (exp_pos u) as Ha. pose proof (exp_pos (- u)) as Hb.
  set (a := exp u) in *. set (b := exp (- u)) in *.
  assert (Hab : 0 < a + b) by lra.
  split.
  - apply (Rmult_lt_reg_r (a + b)); [exact Hab|].
    unfold Rdiv. rewrite Rmult_assoc, Rinv_l by lra. lra.
  - apply (Rmult_lt_reg_r (a + b)); [exact Hab|].
    unfold Rdiv. rewrite Rmult_assoc, Rinv_l by lra. lra.
Qed.

(** The logarithm in [_inverse] undoes [tanh]. *)
Lemma log_ratio_tanh (u : R) :
  ln ((1 + tanh u) / (1 - tanh u)) / 2 = u.
Proof.
  rewrite tanh_as_exp.
  pose proof (exp_pos u) as Ha. pose proof (exp_pos (- u)) as Hb.
  replace ((1 + (exp u - exp (- u)) / (exp u + exp (- u)))
           / (1 - (exp u - exp (- u)) / (exp u + exp (- u))))
    with (exp u / exp (- u)) by (field; lra).
  rewrite exp_Ropp. unfold Rdiv at 2. rewrite Rinv_inv, <- exp_plus, ln_exp.
  lra.
Qed.

Lemma interior_map_tanh (u : list R) : interior (map tanh u).
Proof.
  unfold interior. rewrite Forall_forall. intros v Hv.
  apply in_map_iff in Hv. destruct Hv as (w & <- & _). apply tanh_interior.
Qed.

(** Away from [d = 1], and over the reals: for a real vector [u] of length
    [d (d - 1) / 2] with [d >= 2], the inverse of
    UnconstrainedToCorrLCholeskyTransform applied to the result of its
    forward map gives [u] back, since [0.5 * log((1 + z) / (1 - z))] undoes
    [tanh].  In single precision the same holds approximately, and only while
    [tanh] has not saturated. *)
Theorem unconstrained_round_trip (d : nat) (u : list R) :
  (2 <= d)%nat -> length u = (d * (d - 1) / 2)%nat ->
  (y <- _call u ;; _inverse y) = Ok u.
Proof.
  intros Hd Hlen. unfold _call, _inverse.
  assert (Hz : length (map tanh u) = (d * (d - 1) / 2)%nat)
    by now rewrite length_map.
  destruct (@call_cells d (map tanh u) ltac:(lia) Hz)
    as (y & Hy & Hwf & Hs0 & Hs1 & Hc).
  rewrite Hy. cbv beta iota delta [bind].
  rewrite triangle_size in Hz.
  rewrite (@inverse_of_cells (map tanh u) d y Hd Hz (interior_map_tanh u)
             Hwf Hs0 Hs1) by (intros r c Hr Hcr; apply Hc; lia).
  f_equal. rewrite map_map. rewrite <- (map_id u) at 2.
  apply map_ext. intros a. apply log_ratio_tanh.
Qed.

Lemma unconstrained_round_trip_witness :
  (y <- _call [2; -1; 0.5] ;; _inverse y) = Ok [2; -1; 0.5].
Proof.
  apply (@unconstrained_round_trip 3); [lia | reflexivity].
Defined.

(** C9 fails on the empty vector ([d = 1], length [1 * 0 / 2 = 0]): the
    forward map returns the 1 x 1 matrix [[1]], as it does for every other
    size, and [_inverse] then asks [torch.zeros] for a matrix of
    [D - 2 = -1] rows and columns, which the runtime refuses; the round trip
    ends in that error and not in the empty vector. *)
Lemma unconstrained_round_trip_fails_for_d_1 :
  (length (@nil R) = (1 * (1 - 1) / 2)%nat) /\
  (y <- _call [] ;; _inverse y) = Raise RuntimeError /\
  (y <- _call [] ;; _inverse y) <> Ok [].
Proof.
  split; [reflexivity|]. split; [reflexivity | discriminate].
Qed.

End UnconstrainedClaims.

(** ** The log-gamma function at 1, and [linspace] *)

Section HostFacts.

Lemma sum_ln_fact (m : nat) :
  sum_f_R0 (fun k => ln (1 + INR k)) m = ln (INR (fact (S m))).
Proof.
  induction m as [|m IH].
  - simpl. now rewrite Rplus_0_r.
  - rewrite tech5, IH.
    change (fact (S (S m))) with (S (S m) * fact (S m))%nat.
    rewrite mult_INR, ln_mult.
    + rewrite (S_INR (S m)), (Rplus_comm (INR (S m)) 1). lra.
    + apply lt_0_INR. lia.
    + apply INR_fact_lt_0.
Qed.

Lemma lgamma_seq_1 (n : nat) :
  lgamma_seq 1 n = - ln (1 + / INR (S n)).
Proof.
  unfold lgamma_seq. rewrite sum_ln_fact.
  change (fact (S (S n))) with (S (S n) * fact (S n))%nat.
  assert (Hn : 0 < INR (S n)) by (apply lt_0_INR; lia).
  rewrite mult_INR, ln_mult;
    [| apply lt_0_INR; lia | apply INR_fact_lt_0].
  replace (INR (S (S n))) with (INR (S n) * (1 + / INR (S n)))
    by (rewrite (S_INR (S n)); field; lra).
  rewrite ln_mult; [lra | exact Hn |].
  pose proof (Rinv_0_lt_compat _ Hn). lra.
Qed.

Lemma ln_1_plus_le (t : R) : 0 <= t -> 0 <= ln (1 + t) <= t.
Proof.
  intros Ht. split.
  - rewrite <- ln_1. destruct Ht as [Ht| <-].
    + left. apply ln_increasing; lra.
    + rewrite Rplus_0_r. lra.
  - destruct (exp_ineq1_le t) as [Hlt|Heq].
    + left. rewrite <- (ln_exp t) at 2. apply ln_increasing; lra.
    + right. rewrite Heq. apply ln_exp.
Qed.

Lemma lgamma_seq_1_cv : Un_cv (lgamma_seq 1) 0.
Proof.
  intros eps Heps.
  destruct (archimed_cor1 eps Heps) as (N & HN & HNpos).
  exists N. intros n Hn. rewrite lgamma_seq_1.
  assert (H0 : 0 < INR N) by (apply lt_0_INR; exact HNpos).
  assert (H1 : INR N < INR (S n)) by (apply lt_INR; lia).
  assert (H2 : / INR (S n) < / INR N)
    by (apply Rinv_lt_contravar; [apply Rmult_lt_0_compat; lra | exact H1]).
  assert (H3 : 0 < / INR (S n)) by (apply Rinv_0_lt_compat; lra).
  pose proof (ln_1_plus_le (Rlt_le _ _ H3)) as [Hlo Hhi].
  unfold R_dist. rewrite Rminus_0_r, Rabs_Ropp, Rabs_pos_eq by exact Hlo.
  lra.
Qed.

Lemma lgamma_1 : lgamma 1 = 0.
Proof.
  apply (UL_sequence (lgamma_seq 1)); [|exact lgamma_seq_1_cv].
  unfold lgamma. apply ClassicalEpsilon.epsilon_spec.
  exists 0. exact lgamma_seq_1_cv.
Qed.

Lemma ln_PI_pos : 0 < ln PI.
Proof.
  rewrite <- ln_1. apply ln_increasing; [lra|].
  pose proof PI2_1. lra.
Qed.

Lemma length_linspace (a b : R) (n : nat) : length (linspace a b n) = n.
Proof.
  destruct n as [|[|n]]; try reflexivity.
  unfold linspace. apply length_tabulate.
Qed.

(** [linspace(1, n, n)] counts 1, 2, ..., n. *)
Lemma nth_linspace_up (n i : nat) :
  (i < n)%nat -> nth i (linspace 1 (INR n) n) 0 = INR (S i).
Proof.
  intros Hi. destruct n as [|[|n]]; [lia | |].
  - replace i with O by lia. reflexivity.
  - unfold linspace. rewrite nth_tabulate by exact Hi.
    replace (S (S n) - 1)%nat with (S n) by lia.
    assert (0 < INR (S n)) by (apply lt_0_INR; lia).
    rewrite (S_INR (S n)), (S_INR i). field. lra.
Qed.

(** [linspace(n - 1, 0, n)] counts n - 1, ..., 1, 0. *)
Lemma nth_linspace_down (n i : nat) :
  (i < n)%nat -> nth i (linspace (INR n - 1) 0 n) 0 = INR (n - 1 - i).
Proof.
  intros Hi. destruct n as [|[|n]]; [lia | |].
  - replace i with O by lia. simpl. lra.
  - unfold linspace. rewrite nth_tabulate by exact Hi.
    replace (S (S n) - 1)%nat with (S n) by lia.
    assert (0 < INR (S n)) by (apply lt_0_INR; lia).
    replace (S (S n) - 1 - i)%nat with (S n - i)%nat by lia.
    rewrite minus_INR by lia. rewrite (S_INR (S n)). field. lra.
Qed.

Lemma vsum_map2_plus (a b : list R) :
  length a = length b ->
  vsum (vadd a b) = big_sum (fun i => nth i a 0 + nth i b 0) (length a).
Proof.
  intros H. rewrite vsum_big_sum. unfold vadd.
  rewrite length_map2, <- H, Nat.min_id.
  apply big_sum_ext. intros i Hi. apply nth_map2; lia.
Qed.

End HostFacts.

(** ** CorrLCholeskyLKJPrior *)

Section PriorClaims.

Import CorrLCholeskyLKJPrior.

Lemma lkj_constant_value (Km1 : nat) (eta : R) :
  lgamma (eta + 0.5 * INR Km1) * INR Km1
  - vsum (vadd (map (fun v => v * (ln PI * 0.5)) (linspace 1 (INR Km1) Km1))
               (map (fun v => lgamma (eta + 0.5 * (INR Km1 - v)))
                    (linspace 1 (INR Km1) Km1)))
  = lkj_constant_formula Km1 eta (S Km1).
Proof.
  unfold lkj_constant_formula.
  replace (S Km1 - 1)%nat with Km1 by lia.
  rewrite vsum_map2_plus by now rewrite !length_map.
  rewrite length_map, length_linspace.
  replace (eta + 0.5 * INR Km1) with (eta + INR Km1 / 2) by lra.
  rewrite (Rmult_comm (lgamma _)). f_equal.
  apply big_sum_ext. intros i Hi.
  rewrite !nth_map_R by (rewrite length_linspace; exact Hi).
  rewrite nth_linspace_up by exact Hi.
  replace (eta + 0.5 * (INR Km1 - INR (S i)))
    with (eta + (INR Km1 - INR (S i)) / 2) by lra.
  lra.
Qed.

Lemma lkj_constant_fresh (self : t) (eta : R) (d : nat) :
  (1 <= d)%nat -> _lkj_constant self = None ->
  lkj_constant self eta d =
  Ok (lkj_constant_formula (d - 1) eta d,
      mk (concentrations self) (_eta self) (_d self)
         (Some (lkj_constant_formula (d - 1) eta d))).
Proof.
  intros Hd Hnone. unfold lkj_constant. rewrite Hnone.
  destruct d as [|Km1]; [lia|]. cbv zeta.
  rewrite lkj_constant_value.
  now replace (S Km1 - 1)%nat with Km1 by lia.
Qed.

(** C3, as the code has it: for [d >= 2] and [eta > 0], [lkj_constant(eta, d)]
    on an instance whose cache is empty is [(d-1) lgamma(eta + (d-1)/2)] minus
    the sum over [k = 1 .. d-1] of [k log(pi)/2 + lgamma(eta + (d-1-k)/2)]:
    the last index of the sum is [d - 1]. *)
Theorem lkj_constant_sums_to_d_minus_1 (self : t) (eta : R) (d : nat) :
  (2 <= d)%nat -> 0 < eta -> _lkj_constant self = None ->
  exists self',
    lkj_constant self eta d = Ok (lkj_constant_formula (d - 1) eta d, self') /\
    _lkj_constant self' = Some (lkj_constant_formula (d - 1) eta d).
Proof.
  intros Hd _ Hnone. eexists. split.
  - apply lkj_constant_fresh; [lia | exact Hnone].
  - reflexivity.
Qed.

Lemma lkj_constant_sums_to_d_minus_1_witness :
  exists self',
    lkj_constant prior_2_1 1 2 = Ok (lkj_constant_formula (2 - 1) 1 2, self') /\
    _lkj_constant self' = Some (lkj_constant_formula (2 - 1) 1 2).
Proof.
  apply (@lkj_constant_sums_to_d_minus_1 prior_2_1 1 2);
    [lia | lra | reflexivity].
Defined.

(** C3 as stated, with the sum ending at [k = d - 2], fails at [d = 2],
    [eta = 1]: the code subtracts the term [log(pi)/2 + lgamma(1)] of
    [k = 1], and [log(pi)/2 > 0]. *)
Lemma lkj_constant_not_to_d_minus_2 :
  match lkj_constant prior_2_1 1 2 with
  | Ok (c, _) => c <> lkj_constant_formula (2 - 2) 1 2
  | Raise _ => False
  end.
Proof.
  rewrite lkj_constant_fresh by (try reflexivity; lia).
  unfold lkj_constant_formula. simpl.
  replace (1 + (1 - 1) / 2) with 1 by lra.
  rewrite lgamma_1. pose proof ln_PI_pos. lra.
Qed.

(** The sample instance is the one that [__init__(2, 1.0)] builds. *)
Example init_2_1 (storage : nat -> R) :
  exists self, __init__ storage 2 1 = Ok self /\
    concentrations self = concentrations prior_2_1 /\
    _eta self = _eta prior_2_1 /\ _d self = _d prior_2_1 /\
    _lkj_constant self = _lkj_constant prior_2_1.
Proof.
  unfold __init__. destruct (Rle_dec 1 0) as [H|_]; [lra|].
  eexists. split; [reflexivity|]. cbn.
  repeat split. f_equal. lra.
Qed.

(** The second sample instance is the one that [__init__(3, 2.0)] builds. *)
Example init_3_2 (storage : nat -> R) :
  exists self, __init__ storage 3 2 = Ok self /\
    concentrations self = concentrations prior_3_2 /\
    _eta self = _eta prior_3_2 /\ _d self = _d prior_3_2 /\
    _lkj_constant self = _lkj_constant prior_3_2.
Proof.
  unfold __init__. destruct (Rle_dec 2 0) as [H|_]; [lra|].
  eexists. split; [reflexivity|]. cbn.
  repeat split. repeat (f_equal; try lra).
Qed.

(** C4, as the code has it: [d = 3] and [eta = 1.0] give the concentration
    vector [1.5, 1.5, 1.0]: the two entries of the first block, then the one
    of the second. *)
Theorem init_concentrations_3_1 (storage : nat -> R) :
  exists self, __init__ storage 3 1 = Ok self /\
               concentrations self = [1.5; 1.5; 1].
Proof.
  unfold __init__. destruct (Rle_dec 1 0) as [H|_]; [lra|].
  eexists. split; [reflexivity|]. cbn.
  repeat (f_equal; try lra).
Qed.

(** C4 as stated, with the vector [1.5, 1.0, 1.5], fails. *)
Lemma init_concentrations_3_1_not_as_stated :
  match __init__ (fun _ => 0) 3 1 with
  | Ok self => concentrations self <> [1.5; 1; 1.5]
  | Raise _ => False
  end.
Proof.
  unfold __init__. destruct (Rle_dec 1 0) as [H|_]; [lra|].
  cbn. intros H. injection H as _ H _. lra.
Qed.

(** C5, what the code does: with [eta <= 0] the constructor stops at its
    [raise] statement, but the name there is unbound, so the exception is
    [NameError] and not a validation error. *)
Theorem init_nonpositive_eta (storage : nat -> R) (d : nat) (eta : R) :
  eta <= 0 ->
  __init__ storage d eta = Raise NameError /\
  __init__ storage d eta <> Raise ValueError.
Proof.
  intros H. unfold __init__. destruct (Rle_dec eta 0) as [_|Hn]; [|lra].
  split; [reflexivity | discriminate].
Qed.

Lemma init_nonpositive_eta_witness :
  (__init__ (fun _ => 0) 3 0 = Raise NameError /\
   __init__ (fun _ => 0) 3 0 <> Raise ValueError) /\
  (__init__ (fun _ => 0) 3 (-1) = Raise NameError /\
   __init__ (fun _ => 0) 3 (-1) <> Raise ValueError).
Proof.
  split; apply init_nonpositive_eta; lra.
Defined.

End PriorClaims.

(** ** [log_prob] *)

Section LogProbClaims.

Import CorrLCholeskyLKJPrior.

(** The constant that [log_prob] adds: the cached one, or the one computed
    from [_eta] and [_d] when the cache is empty. *)
Lemma lkj_constant_cached (self : t) :
  (1 <= _d self)%nat ->
  exists c self',
    lkj_constant self (_eta self) (_d self) = Ok (c, self') /\
    _lkj_constant self' = Some c /\
    c = match _lkj_constant self with
        | Some c0 => c0
        | None => lkj_constant_formula (_d self - 1) (_eta self) (_d self)
        end.
Proof.
  intros Hd. destruct (_lkj_constant self) as [c0|] eqn:Hcache.
  - exists c0, self. unfold lkj_constant. rewrite Hcache. auto.
  - eexists _, _. rewrite lkj_constant_fresh by assumption.
    repeat split; reflexivity.
Qed.

Lemma lkj_constant_raises (self : t) (e : exn) :
  lkj_constant self (_eta self) (_d self) = Raise e -> e = RuntimeError.
Proof.
  unfold lkj_constant. destruct (_lkj_constant self); [discriminate|].
  destruct (_d self); [|discriminate]. now intros [= <-].
Qed.

Lemma length_diagonal (y : Tensor2) :
  length (diagonal y) = Nat.min (shape0 y) (shape1 y).
Proof. apply length_tabulate. Qed.

Lemma length_drop_last (l : list R) :
  length (drop_last l) = (length l - 1)%nat.
Proof. unfold drop_last. rewrite length_firstn. lia. Qed.

(** [log_prob] on a matrix that has at least as many rows as columns. *)
Lemma log_prob_value (self : t) (y : Tensor2) (Km1 : nat) :
  (1 <= _d self)%nat -> shape1 y = S Km1 -> (S Km1 <= shape0 y)%nat ->
  exists c self',
    log_prob self y =
      Ok (c + big_sum (fun k => ln (item y k k)
                               * (INR (Km1 - 1 - k) + 2 * _eta self - 2)) Km1,
          self') /\
    _lkj_constant self' = Some c /\
    c = match _lkj_constant self with
        | Some c0 => c0
        | None => lkj_constant_formula (_d self - 1) (_eta self) (_d self)
        end.
Proof.
  intros Hd Hs1 Hs0.
  destruct (lkj_constant_cached self Hd) as (c & self' & Hlp & Hc & Hval).
  exists c, self'. split; [|split; assumption].
  unfold log_prob. rewrite Hlp, Hs1. cbv beta iota zeta delta [bind fst snd].
  assert (Hdiag : length (diagonal y) = S Km1)
    by (rewrite length_diagonal; lia).
  assert (Hld : length (map ln (drop_last (diagonal y))) = Km1)
    by (rewrite length_map, length_drop_last, Hdiag; lia).
  rewrite Hld. unfold expand_as. rewrite length_linspace, Nat.eqb_refl.
  f_equal. f_equal. rewrite Rplus_comm. f_equal.
  rewrite vsum_map2_plus
    by (unfold vmul;
        rewrite length_map2, length_linspace, !length_map, length_drop_last,
          Hdiag; lia).
  unfold vmul. rewrite length_map2, Hld, length_linspace, Nat.min_id.
  apply big_sum_ext. intros k Hk.
  rewrite nth_map2 by (rewrite ?Hld, ?length_linspace; exact Hk).
  rewrite !nth_map_R by (rewrite ?length_drop_last, ?Hdiag; lia).
  rewrite nth_linspace_down by exact Hk.
  unfold drop_last. rewrite nth_firstn, Hdiag.
  replace (k <? S Km1 - 1)%nat with true by (symmetry; apply Nat.ltb_lt; lia).
  unfold diagonal. rewrite nth_tabulate by lia. lra.
Qed.

(** [log_prob] on a matrix with fewer rows than columns, and three columns
    or more: the exponents do not fit the diagonal. *)
Lemma log_prob_wide (self : t) (y : Tensor2) :
  (shape0 y < shape1 y)%nat -> (3 <= shape1 y)%nat ->
  log_prob self y = Raise RuntimeError.
Proof.
  intros Hw H3. unfold log_prob.
  destruct (lkj_constant self (_eta self) (_d self)) as [r|e] eqn:Hlp.
  - cbv beta iota zeta delta [bind].
    destruct (shape1 y) as [|Km1] eqn:Hs1; [reflexivity|].
    unfold expand_as.
    rewrite length_linspace, length_map, length_drop_last, length_diagonal, Hs1.
    replace (Km1 =? Nat.min (shape0 y) (S Km1) - 1)%nat with false
      by (symmetry; apply Nat.eqb_neq; lia).
    replace (Km1 =? 1)%nat with false by (symmetry; apply Nat.eqb_neq; lia).
    reflexivity.
  - apply lkj_constant_raises in Hlp. now subst e.
Qed.

(** C6, as the code has it: on a matrix that is not square, [_inverse]
    raises its domain error ([ValueError]).  [log_prob] has no such test: on
    a matrix with fewer rows than columns and at least three columns (2 x 3)
    it fails on the shapes of its intermediate vectors ([RuntimeError]), and
    on a matrix with more rows than columns (3 x 2) it returns a value. *)
Theorem non_square_input (self : t) (y : Tensor2) :
  shape0 y <> shape1 y -> (1 <= _d self)%nat ->
  PartialCorrToCorrLCholeskyTransform._inverse y = Raise ValueError /\
  ((shape0 y < shape1 y)%nat -> (3 <= shape1 y)%nat ->
   log_prob self y = Raise RuntimeError) /\
  ((shape1 y < shape0 y)%nat -> (1 <= shape1 y)%nat ->
   exists v self', log_prob self y = Ok (v, self')).
Proof.
  intros Hns Hd. split; [|split].
  - unfold PartialCorrToCorrLCholeskyTransform._inverse.
    now replace (shape0 y =? shape1 y)%nat with false
      by (symmetry; now apply Nat.eqb_neq).
  - apply log_prob_wide.
  - intros Ht H1. destruct (shape1 y) as [|Km1] eqn:Hs1; [lia|].
    destruct (@log_prob_value self y Km1 Hd Hs1 ltac:(lia))
      as (c & self' & H & _).
    eauto.
Qed.

Lemma non_square_input_witness :
  (PartialCorrToCorrLCholeskyTransform._inverse matrix_3x2 = Raise ValueError /\
   ((3 < 2)%nat -> (3 <= 2)%nat ->
    log_prob prior_2_1 matrix_3x2 = Raise RuntimeError) /\
   ((2 < 3)%nat -> (1 <= 2)%nat ->
    exists v self', log_prob prior_2_1 matrix_3x2 = Ok (v, self'))) /\
  (PartialCorrToCorrLCholeskyTransform._inverse matrix_2x3 = Raise ValueError /\
   ((2 < 3)%nat -> (3 <= 3)%nat ->
    log_prob prior_2_1 matrix_2x3 = Raise RuntimeError) /\
   ((3 < 2)%nat -> (1 <= 3)%nat ->
    exists v self', log_prob prior_2_1 matrix_2x3 = Ok (v, self'))).
Proof.
  split.
  - apply (@non_square_input prior_2_1 matrix_3x2); simpl; lia.
  - apply (@non_square_input prior_2_1 matrix_2x3); simpl; lia.
Defined.

(** C6 as stated fails for [log_prob]: the 3 x 2 matrix is not square, and
    [log_prob] returns a value on it. *)
Lemma log_prob_accepts_3x2 :
  shape0 matrix_3x2 <> shape1 matrix_3x2 /\
  exists v self', log_prob prior_2_1 matrix_3x2 = Ok (v, self').
Proof.
  split; [simpl; lia|].
  destruct (@log_prob_value prior_2_1 matrix_3x2 1) as (c & self' & H & _);
    [simpl; lia | reflexivity | simpl; lia |].
  eauto.
Qed.

(** C8: on a square K x K matrix [y] of the support (lower triangular,
    positive diagonal), [log_prob(y)] is the cached normalizing constant plus
    the sum over [k = 0 .. K-2] of [log(y[k,k]) * ((K-2-k) + 2 eta - 2)]: the
    last diagonal entry is left out and the whole exponent counts down from
    [K - 2] to 0.  The constant is the one in the cache, or
    [lkj_constant(eta, d)] when the cache is empty, and it is in the cache
    afterwards. *)
Theorem log_prob_closed_form (self : t) (y : Tensor2) (K : nat) :
  (1 <= K)%nat -> (1 <= _d self)%nat ->
  shape0 y = K -> shape1 y = K ->
  (forall r c, (r < c)%nat -> (c < K)%nat -> item y r c = 0) ->
  (forall k, (k < K)%nat -> 0 < item y k k) ->
  exists c self',
    log_prob self y =
      Ok (c + big_sum (fun k => ln (item y k k)
                               * (INR (K - 2 - k) + 2 * _eta self - 2))
                      (K - 1),
          self') /\
    _lkj_constant self' = Some c /\
    c = match _lkj_constant self with
        | Some c0 => c0
        | None => lkj_constant_formula (_d self - 1) (_eta self) (_d self)
        end.
Proof.
  intros HK Hd Hs0 Hs1 _ _.
  destruct K as [|Km1]; [lia|].
  destruct (@log_prob_value self y Km1 Hd Hs1 ltac:(lia))
    as (c & self' & H & Hc & Hval).
  exists c, self'. split; [|split; assumption].
  rewrite H. replace (S Km1 - 1)%nat with Km1 by lia. reflexivity.
Qed.

Lemma log_prob_closed_form_witness :
  exists c self',
    log_prob prior_3_2 lower_3x3 =
      Ok (c + big_sum (fun k => ln (item lower_3x3 k k)
                               * (INR (3 - 2 - k) + 2 * _eta prior_3_2 - 2))
                      (3 - 1),
          self') /\
    _lkj_constant self' = Some c /\
    c = match _lkj_constant prior_3_2 with
        | Some c0 => c0
        | None =>
            lkj_constant_formula (_d prior_3_2 - 1) (_eta prior_3_2)
              (_d prior_3_2)
        end.
Proof.
  apply (@log_prob_closed_form prior_3_2 lower_3x3 3);
    try (simpl; lia); try reflexivity.
  - intros r c Hr Hc.
    assert ((r = 0 /\ c = 1) \/ (r = 0 /\ c = 2) \/ (r = 1 /\ c = 2))%nat
      as [[-> ->]|[[-> ->]|[-> ->]]] by lia; reflexivity.
  - intros k Hk. destruct k as [|[|[|k]]]; [| | |lia]; cbn; lra.
Defined.

(** At [K = 3], [eta = 2] and diagonal [0.5, 0.25, 1] the sum has the two
    terms [3 log 0.5] and [2 log 0.25]: the exponents are [1 + 2] and
    [0 + 2], and the last diagonal entry has no term. *)
Example log_prob_sum_3_2 :
  big_sum (fun k => ln (item lower_3x3 k k)
                    * (INR (3 - 2 - k) + 2 * _eta prior_3_2 - 2)) (3 - 1)
  = 3 * ln 0.5 + 2 * ln 0.25.
Proof.
  cbn. lra.
Qed.

End LogProbClaims.

(** ** [_call]: the sizes it accepts, and the shape of what it returns *)

Section CallSizes.

Import PartialCorrToCorrLCholeskyTransform.

Lemma dimension_Ok (n D : nat) :
  dimension n = Ok D -> (1 <= D)%nat /\ n = offset D D.
Proof.
  unfold dimension. set (s := Nat.sqrt (1 + 8 * n)).
  destruct (Nat.eqb_spec (s * s) (1 + 8 * n)) as [Hs|_]; [|discriminate].
  intros H.
  assert (HD : D = ((1 + s) / 2)%nat)
    by (injection H; intros E; symmetry; exact E).
  rewrite HD. clear H HD.
  destruct (Nat.Even_or_Odd s) as [[m Hm]|[m Hm]].
  - exfalso. rewrite Hm in Hs. set (q := (m * m)%nat) in *.
    assert (2 * m * (2 * m) = 4 * q)%nat by (unfold q; ring). lia.
  - replace (1 + s)%nat with ((m + 1) * 2)%nat by lia.
    rewrite Nat.div_mul by discriminate.
    split; [lia|].
    pose proof (offset_total (m + 1)) as Ht.
    replace (m + 1 - 1)%nat with m in Ht by lia.
    rewrite Hm in Hs. nia.
Qed.

Lemma dimension_raises (n : nat) (e : exn) :
  dimension n = Raise e -> e = ValueError.
Proof.
  unfold dimension.
  destruct (Nat.sqrt (1 + 8 * n) * Nat.sqrt (1 + 8 * n) =? 1 + 8 * n)%nat;
    [discriminate | now intros [= <-]].
Qed.

(** On a vector of at most a million entries, [_call] raises its
    [ValueError] exactly when the length is not [d (d - 1) / 2] for any [d],
    and returns a matrix otherwise.  The bound keeps [1 + 8 n] far below
    [2 ^ 53], where the double-precision square root of the source and the
    exact integer test agree. *)
Theorem call_raises_iff_not_triangular (x : list R) :
  (Z.of_nat (length x) <= 1000000)%Z ->
  (_call x = Raise ValueError <->
   forall d, length x <> (d * (d - 1) / 2)%nat) /\
  ((exists y, _call x = Ok y) <->
   exists d, length x = (d * (d - 1) / 2)%nat).
Proof.
  intros _.
  assert (Hok : forall d, length x = (d * (d - 1) / 2)%nat ->
                          exists y, _call x = Ok y).
  { intros d Hd. destruct d as [|d].
    - destruct (@call_cells 1 x (le_n 1)) as (y & Hy & _); [|eauto].
      rewrite Hd. reflexivity.
    - destruct (@call_cells (S d) x ltac:(lia) Hd) as (y & Hy & _). eauto. }
  assert (Hbad : (forall d, length x <> (d * (d - 1) / 2)%nat) ->
                 _call x = Raise ValueError).
  { intros Hno. unfold _call.
    destruct (dimension (length x)) as [D|e] eqn:HD.
    - apply dimension_Ok in HD. destruct HD as [_ HD].
      exfalso. apply (Hno D). now rewrite triangle_size.
    - apply dimension_raises in HD. now subst e. }
  split; split.
  - intros Hr d Hd. destruct (Hok d Hd) as (y & Hy). congruence.
  - exact Hbad.
  - intros (y & Hy). unfold _call in Hy.
    destruct (dimension (length x)) as [D|e] eqn:HD; [|discriminate].
    apply dimension_Ok in HD. exists D. now rewrite triangle_size.
  - intros (d & Hd). eauto.
Qed.

Lemma call_raises_iff_not_triangular_witness :
  (_call [0.5; 0.25] = Raise ValueError <->
   forall d, length [0.5; 0.25] <> (d * (d - 1) / 2)%nat) /\
  ((exists y, _call [0.5; 0.25] = Ok y) <->
   exists d, length [0.5; 0.25] = (d * (d - 1) / 2)%nat).
Proof.
  apply (@call_raises_iff_not_triangular [0.5; 0.25]). simpl. lia.
Defined.

(** Whatever the entries of [x] are, the matrix that [_call] returns is
    [d x d], has 1 in its corner, the first [d - 1] entries of [x] down its
    first column, and zeros above its diagonal. *)
Theorem call_layout (d : nat) (x : list R) :
  (1 <= d)%nat -> length x = (d * (d - 1) / 2)%nat ->
  exists y, _call x = Ok y /\ wf y /\ shape0 y = d /\ shape1 y = d /\
    item y 0 0 = 1 /\
    (forall r, (1 <= r)%nat -> (r < d)%nat -> item y r 0 = nth (r - 1) x 0) /\
    (forall r c, (r < c)%nat -> (c < d)%nat -> item y r c = 0).
Proof.
  intros Hd Hlen.
  destruct (@call_cells d x Hd Hlen) as (y & Hy & Hwf & Hs0 & Hs1 & Hc).
  exists y. repeat split; try assumption; try apply Hwf.
  - rewrite Hc by lia. unfold cell. simpl. apply sqrt_1.
  - intros r Hr1 Hr. rewrite Hc by lia. unfold cell, partial.
    replace (0 <? r)%nat with true by (symmetry; apply Nat.ltb_lt; lia).
    simpl. rewrite sqrt_1, Nat.sub_0_r. lra.
  - intros r c Hrc Hcd. rewrite Hc by lia. unfold cell.
    replace (c <? r)%nat with false by (symmetry; apply Nat.ltb_ge; lia).
    replace (c =? r)%nat with false by (symmetry; apply Nat.eqb_neq; lia).
    reflexivity.
Qed.

Lemma call_layout_witness :
  exists y, PartialCorrToCorrLCholeskyTransform._call [5; -7; 2] = Ok y /\
    wf y /\ shape0 y = 3%nat /\ shape1 y = 3%nat /\
    item y 0 0 = 1 /\
    (forall r, (1 <= r)%nat -> (r < 3)%nat ->
               item y r 0 = nth (r - 1) [5; -7; 2] 0) /\
    (forall r c, (r < c)%nat -> (c < 3)%nat -> item y r c = 0).
Proof.
  apply (@call_layout 3 [5; -7; 2]); [lia | reflexivity].
Defined.

End CallSizes.

(** ** [_inverse] on any square matrix *)

Section InverseAnyMatrix.

Import PartialCorrToCorrLCholeskyTransform.

Lemma length_concat_blocks (D : nat) (B : nat -> list R) (n : nat) :
  (forall j, (j < n)%nat -> length (B j) = (D - 1 - j)%nat) ->
  length (concat (map B (seq 0 n))) = offset D n.
Proof.
  induction n as [|n IH]; intros HB; [reflexivity|].
  rewrite seq_S, map_app, concat_app, length_app, IH
    by (intros; apply HB; lia).
  simpl. rewrite app_nil_r, HB by lia. reflexivity.
Qed.

Lemma nth_concat_blocks (D : nat) (B : nat -> list R) (n j k : nat) :
  (forall j, (j < n)%nat -> length (B j) = (D - 1 - j)%nat) ->
  (j < n)%nat -> (k < D - 1 - j)%nat ->
  nth (offset D j + k) (concat (map B (seq 0 n))) 0 = nth k (B j) 0.
Proof.
  induction n as [|n IH]; intros HB Hj Hk; [lia|].
  assert (Hlen : length (concat (map B (seq 0 n))) = offset D n)
    by (apply length_concat_blocks; intros; apply HB; lia).
  rewrite seq_S, map_app, concat_app. simpl. rewrite app_nil_r.
  destruct (Nat.eq_dec j n) as [->|Hne].
  - rewrite app_nth2 by lia. rewrite Hlen. f_equal. lia.
  - pose proof (@offset_le D (S j) n ltac:(lia)) as Hoff. simpl in Hoff.
    rewrite app_nth1 by lia. apply IH; [intros; apply HB; lia | lia | lia].
Qed.

Variable y : Tensor2.
Variable D : nat.

Hypothesis D_ge_2 : (2 <= D)%nat.
Hypothesis y_wf : wf y.
Hypothesis y_shape0 : shape0 y = D.
Hypothesis y_shape1 : shape1 y = D.

Lemma inverse_row_values_any (i k : nat) :
  (2 <= i)%nat -> (i < D)%nat -> (k < i - 1)%nat ->
  nth k (vdiv (row_slice y i 1 i)
          (map (fun v => sqrt (1 - v))
             (cumsum (map (fun v => v ^ 2) (row_slice y i 0 (i - 1)))))) 0
  = inverse_entry y i (S k).
Proof.
  intros Hi2 HiD Hk.
  assert (Hrow : length (row y i) = D)
    by (rewrite length_row; [exact y_shape1 | exact y_wf | lia]).
  assert (Hl0 : length (row_slice y i 0 (i - 1)) = (i - 1)%nat)
    by (unfold row_slice; rewrite length_slice; lia).
  unfold vdiv, cumsum. rewrite nth_map2.
  2: unfold row_slice; rewrite length_slice; lia.
  2: rewrite length_map, length_cumsum_from, length_map, Hl0; lia.
  rewrite nth_map_R by (rewrite length_cumsum_from, length_map, Hl0; lia).
  rewrite nth_cumsum_from by (rewrite length_map, Hl0; lia).
  unfold row_slice at 1. rewrite nth_slice by lia.
  change (nth (1 + k) (row y i) 0) with (item y i (S k)).
  unfold inverse_entry, sumsq_before.
  rewrite (big_sum_ext _ (fun c => item y i c ^ 2)).
  - now rewrite Rplus_0_l.
  - intros c Hc. rewrite nth_map_R by (rewrite Hl0; lia).
    unfold row_slice. rewrite nth_slice by lia. reflexivity.
Qed.

Lemma inverse_loop_any (m : nat) :
  (m <= D - 2)%nat ->
  inverse_loop_inv y D m
    (fold_left (inverse_body y) (seq 2 m) (zeros2 (D - 2) (D - 2))).
Proof.
  induction m as [|m IH]; intros Hm.
  - simpl. repeat split; try apply wf_zeros2. intros a k Ha. lia.
  - rewrite seq_S, fold_left_app. simpl fold_left.
    destruct (IH ltac:(lia)) as (Hwf & Hs0 & Hs1 & Hz).
    set (z := fold_left _ _ _) in *.
    unfold inverse_body.
    replace (S (S m) - 2)%nat with m by lia.
    refine (conj _ (conj _ (conj _ _))).
    + now apply wf_set_row_slice.
    + exact Hs0.
    + exact Hs1.
    + intros a k Ha Hk.
      rewrite item_set_row_slice by (try exact Hwf; lia).
      destruct (Nat.eq_dec a m) as [->|Hne].
      * rewrite Nat.eqb_refl.
        replace (k <? S (S m) - 1)%nat with true
          by (symmetry; apply Nat.ltb_lt; lia).
        cbv beta iota delta [andb Nat.leb]. rewrite Nat.sub_0_r.
        rewrite inverse_row_values_any by lia. f_equal. lia.
      * replace (a =? m)%nat with false by (symmetry; now apply Nat.eqb_neq).
        apply Hz; lia.
Qed.

Lemma inverse_entry_first_column (r : nat) :
  inverse_entry y r 0 = item y r 0.
Proof.
  unfold inverse_entry, sumsq_before. simpl.
  rewrite Rminus_0_r, sqrt_1. field.
Qed.

Lemma length_inverse_block (j : nat) :
  length (inverse_block y D j) = (D - 1 - j)%nat.
Proof. apply length_tabulate. Qed.

(** What [_inverse] returns, whatever the entries of the matrix are. *)
Lemma inverse_as_blocks :
  _inverse y = Ok (concat (map (inverse_block y D) (seq 0 (D - 1)))).
Proof.
  unfold _inverse. rewrite y_shape0, y_shape1, Nat.eqb_refl.
  replace (D <? 2)%nat with false by (symmetry; apply Nat.ltb_ge; lia).
  cbv beta iota zeta delta [negb]. f_equal.
  destruct (@inverse_loop_any (D - 2)%nat (le_n _)) as (Hwf & Hs0 & Hs1 & Hz).
  set (z := fold_left _ _ _) in *.
  assert (H0 : col_from y 1 0 = inverse_block y D 0).
  { apply (nth_ext _ _ 0 0).
    - rewrite length_col_from, length_inverse_block, y_shape0 by exact y_wf.
      lia.
    - intros k Hk.
      rewrite length_col_from, y_shape0 in Hk by exact y_wf.
      rewrite nth_col_from by (try exact y_wf; lia).
      unfold inverse_block. rewrite nth_tabulate by lia.
      rewrite inverse_entry_first_column. f_equal. }
  assert (Hj : forall j, In j (seq 0 (D - 2)) ->
                         col_from z j j = inverse_block y D (S j)).
  { intros j Hin. apply in_seq in Hin.
    apply (nth_ext _ _ 0 0).
    - rewrite length_col_from, length_inverse_block, Hs0 by exact Hwf. lia.
    - intros k Hk. rewrite length_col_from, Hs0 in Hk by exact Hwf.
      rewrite nth_col_from by (try exact Hwf; lia).
      unfold inverse_block. rewrite nth_tabulate by lia.
      rewrite Hz by lia. f_equal. lia. }
  rewrite H0, (map_ext_in _ _ _ Hj).
  replace (D - 1)%nat with (S (D - 2)) by lia.
  simpl. now rewrite <- seq_shift, map_map.
Qed.

Lemma inverse_partial (r c : nat) :
  (c < r)%nat -> (r < D)%nat ->
  partial (concat (map (inverse_block y D) (seq 0 (D - 1)))) D r c
  = inverse_entry y r c.
Proof.
  intros Hc Hr. unfold partial.
  rewrite (@nth_concat_blocks D) by (try lia; intros; apply length_tabulate).
  unfold inverse_block. rewrite nth_tabulate by lia. f_equal. lia.
Qed.

Lemma inverse_length :
  length (concat (map (inverse_block y D) (seq 0 (D - 1)))) = offset D D.
Proof.
  rewrite (@length_concat_blocks D) by (intros; apply length_tabulate).
  apply offset_last.
Qed.

End InverseAnyMatrix.

(** ** [_call] undoes [_inverse] on the support *)

Section RightInverse.

Import PartialCorrToCorrLCholeskyTransform.

Lemma big_sum_nonneg (f : nat -> R) (n : nat) :
  (forall k, (k < n)%nat -> 0 <= f k) -> 0 <= big_sum f n.
Proof.
  induction n as [|n IH]; intros H; simpl; [lra|].
  pose proof (IH ltac:(intros; apply H; lia)). pose proof (H n ltac:(lia)).
  lra.
Qed.

Lemma sumsq_before_S (y : Tensor2) (r c : nat) :
  sumsq_before y r (S c) = sumsq_before y r c + item y r c ^ 2.
Proof. reflexivity. Qed.

Lemma sumsq_before_le (y : Tensor2) (r c c' : nat) :
  (c <= c')%nat -> sumsq_before y r c <= sumsq_before y r c'.
Proof.
  induction 1 as [|c' _ IH]; [lra|].
  rewrite sumsq_before_S.
  pose proof (pow2_ge_0 (item y r c')). lra.
Qed.

Lemma row_sumsq (y : Tensor2) (r : nat) :
  wf y -> (r < shape0 y)%nat ->
  vsum (map (fun v => v ^ 2) (row y r)) = sumsq_before y r (shape1 y).
Proof.
  intros Hwf Hr. rewrite vsum_big_sum, length_map, length_row by assumption.
  apply big_sum_ext. intros c Hc.
  rewrite nth_map_R by (rewrite length_row; assumption). reflexivity.
Qed.

(** Two matrices of one shape with the same entries are the same. *)
Lemma tensor_ext (y y' : Tensor2) :
  wf y -> wf y' -> shape0 y = shape0 y' -> shape1 y = shape1 y' ->
  (forall r c, (r < shape0 y)%nat -> (c < shape1 y)%nat ->
               item y r c = item y' r c) ->
  y = y'.
Proof.
  destruct y as [s0 s1 rs], y' as [s0' s1' rs'].
  unfold wf, item, row; simpl.
  intros [Hl Hr] [Hl' Hr'] <- <- Hitem. f_equal.
  apply (nth_ext _ _ [] []); [congruence|].
  intros r Hlt. rewrite Hl in Hlt.
  apply (nth_ext _ _ 0 0); [rewrite Hr, Hr'; auto|].
  intros c Hc. rewrite Hr in Hc by exact Hlt. now apply Hitem.
Qed.

Variable y : Tensor2.
Variable D : nat.

Hypothesis D_ge_2 : (2 <= D)%nat.
Hypothesis y_support : in_support D y.

Local Abbreviation x :=
  (concat (map (inverse_block y D) (seq 0 (D - 1)))).

Lemma support_row_total (r : nat) :
  (r < D)%nat -> sumsq_before y r (S r) = 1.
Proof.
  intros Hr. destruct y_support as (Hwf & Hs0 & Hs1 & Hup & _ & Hnorm).
  assert (Hall : sumsq_before y r D = 1).
  { pose proof (Hnorm r Hr) as Hn. unfold norm in Hn.
    rewrite row_sumsq, Hs1 in Hn by (try exact Hwf; lia).
    assert (H0 : 0 <= sumsq_before y r D)
      by (apply big_sum_nonneg; intros; apply pow2_ge_0).
    rewrite <- (sqrt_sqrt _ H0), Hn. lra. }
  rewrite <- Hall.
  assert (Hn : forall n, (S r <= n)%nat -> (n <= D)%nat ->
                         sumsq_before y r n = sumsq_before y r (S r)).
  { induction n as [|n IH]; intros H1 H2; [lia|].
    destruct (Nat.eq_dec n r) as [->|Hne]; [reflexivity|].
    rewrite sumsq_before_S, IH by lia. rewrite (Hup r n) by lia. lra. }
  symmetry. apply Hn; lia.
Qed.

Lemma support_room (r c : nat) :
  (c <= r)%nat -> (r < D)%nat -> 0 < 1 - sumsq_before y r c.
Proof.
  intros Hc Hr. destruct y_support as (_ & _ & _ & _ & Hpos & _).
  pose proof (support_row_total Hr) as Ht.
  pose proof (@sumsq_before_le y r c r Hc) as Hle.
  pose proof (Hpos r Hr) as Hd.
  rewrite sumsq_before_S in Ht. nra.
Qed.

Lemma support_entry_small (r c : nat) :
  (c < r)%nat -> (r < D)%nat ->
  item y r c ^ 2 < 1 - sumsq_before y r c.
Proof.
  intros Hc Hr. pose proof (@support_room r (S c) ltac:(lia) Hr) as H.
  rewrite sumsq_before_S in H. lra.
Qed.

Lemma support_remaining (r c : nat) :
  (c <= r)%nat -> (r < D)%nat ->
  remaining x D r c = 1 - sumsq_before y r c.
Proof.
  intros Hc Hr. induction c as [|c IH].
  - unfold sumsq_before. simpl. lra.
  - rewrite remaining_S, IH by lia.
    destruct y_support as (Hwf & Hs0 & Hs1 & _).
    rewrite (@inverse_partial y D) by (try assumption; lia).
    unfold inverse_entry.
    pose proof (@support_room r c ltac:(lia) Hr) as Hroom.
    pose proof (sqrt_lt_R0 _ Hroom) as Hs.
    pose proof (sqrt_sqrt _ (Rlt_le _ _ Hroom)) as Hss.
    set (t := 1 - sumsq_before y r c) in *. set (s := sqrt t) in *.
    replace (item y r c / s * s) with (item y r c) by (field; lra).
    rewrite sumsq_before_S. unfold t. lra.
Qed.

Lemma support_cells (r c : nat) :
  (r < D)%nat -> (c < D)%nat -> cell x D r c = item y r c.
Proof.
  intros Hr Hc. unfold cell.
  destruct y_support as (Hwf & Hs0 & Hs1 & Hup & Hpos & _).
  destruct (Nat.lt_trichotomy c r) as [Hlt|[->|Hgt]].
  - replace (c <? r)%nat with true by (symmetry; apply Nat.ltb_lt; lia).
    rewrite support_remaining by lia.
    rewrite (@inverse_partial y D) by (try assumption; lia).
    unfold inverse_entry.
    pose proof (sqrt_lt_R0 _ (@support_room r c ltac:(lia) Hr)).
    field. lra.
  - rewrite Nat.ltb_irrefl, Nat.eqb_refl, support_remaining by lia.
    pose proof (support_row_total Hr) as Ht.
    rewrite sumsq_before_S in Ht.
    replace (1 - sumsq_before y r r) with (item y r r ^ 2) by lra.
    apply sqrt_pow2. left. now apply Hpos.
  - replace (c <? r)%nat with false by (symmetry; apply Nat.ltb_ge; lia).
    replace (c =? r)%nat with false by (symmetry; apply Nat.eqb_neq; lia).
    symmetry. apply Hup; lia.
Qed.

Lemma support_interior : interior x.
Proof.
  unfold interior. apply Forall_concat. rewrite Forall_forall.
  intros l Hl. apply in_map_iff in Hl. destruct Hl as (j & <- & Hj).
  apply in_seq in Hj. rewrite Forall_forall. intros v Hv.
  unfold inverse_block, tabulate in Hv. apply in_map_iff in Hv.
  destruct Hv as (k & <- & Hk). apply in_seq in Hk.
  unfold inverse_entry.
  pose proof (@support_entry_small (j + 1 + k) j ltac:(lia) ltac:(lia)) as Hsm.
  pose proof (@support_room (j + 1 + k) j ltac:(lia) ltac:(lia)) as Hroom.
  pose proof (sqrt_lt_R0 _ Hroom) as Hs.
  pose proof (sqrt_sqrt _ (Rlt_le _ _ Hroom)) as Hss.
  set (t := 1 - sumsq_before y (j + 1 + k) j) in *. set (s := sqrt t) in *.
  set (a := item y (j + 1 + k) j) in *.
  assert (Ha : - s < a < s) by (split; nra).
  split.
  - apply (Rmult_lt_reg_r s); [exact Hs|].
    unfold Rdiv. rewrite Rmult_assoc, Rinv_l by lra. lra.
  - apply (Rmult_lt_reg_r s); [exact Hs|].
    unfold Rdiv. rewrite Rmult_assoc, Rinv_l by lra. lra.
Qed.

Lemma inverse_then_call :
  exists x', _inverse y = Ok x' /\ interior x' /\
             length x' = (D * (D - 1) / 2)%nat /\ _call x' = Ok y.
Proof.
  destruct y_support as (Hwf & Hs0 & Hs1 & _).
  exists x. split; [apply inverse_as_blocks; assumption|].
  split; [exact support_interior|].
  assert (Hlen : length x = (D * (D - 1) / 2)%nat)
    by (rewrite triangle_size; apply inverse_length).
  split; [exact Hlen|].
  destruct (@call_cells D x ltac:(lia) Hlen)
    as (y' & Hy' & Hwf' & H0 & H1 & Hc).
  rewrite Hy'. f_equal. apply tensor_ext; try assumption; try congruence.
  intros r c Hr Hc'. rewrite Hc by congruence.
  apply support_cells; congruence.
Qed.

End RightInverse.

(** ** The transform is a bijection between its domain and the support *)

Section Bijection.

Import PartialCorrToCorrLCholeskyTransform.

(** The matrix that [_call] returns on its domain lies in the support. *)
Lemma call_in_support (d : nat) (x : list R) :
  (1 <= d)%nat -> length x = (d * (d - 1) / 2)%nat -> interior x ->
  exists y, _call x = Ok y /\ in_support d y /\
            forall r c, (r < d)%nat -> (c < d)%nat -> item y r c = cell x d r c.
Proof.
  intros Hd Hlen Hx.
  destruct (@call_cells d x Hd Hlen) as (y & Hy & Hwf & Hs0 & Hs1 & Hc).
  exists y. split; [exact Hy|]. split; [|exact Hc].
  refine (conj Hwf (conj Hs0 (conj Hs1 (conj _ (conj _ _))))).
  - intros r c Hrc Hcd. rewrite Hc by lia. unfold cell.
    replace (c <? r)%nat with false by (symmetry; apply Nat.ltb_ge; lia).
    replace (c =? r)%nat with false by (symmetry; apply Nat.eqb_neq; lia).
    reflexivity.
  - intros r Hr. rewrite Hc by lia. unfold cell.
    rewrite Nat.ltb_irrefl, Nat.eqb_refl.
    apply sqrt_lt_R0, remaining_pos, Hx.
  - intros r Hr. unfold norm.
    rewrite row_sumsq, Hs1 by (try exact Hwf; lia). unfold sumsq_before.
    rewrite (big_sum_ext _ (fun c => cell x d r c ^ 2))
      by (intros c Hcd; now rewrite Hc).
    rewrite cell_sumsq_row by assumption. apply sqrt_1.
Qed.

Lemma factor_2x2_in_support : in_support 2 factor_2x2.
Proof.
  unfold in_support, factor_2x2.
  refine (conj _ (conj eq_refl (conj eq_refl (conj _ (conj _ _))))).
  - split; [reflexivity|]. intros r Hr. simpl in Hr.
    destruct r as [|[|r]]; [reflexivity | reflexivity | lia].
  - intros r c Hr Hc.
    assert (r = 0%nat /\ c = 1%nat) as [-> ->] by lia. reflexivity.
  - intros r Hr. destruct r as [|[|r]]; [| |lia]; cbn; lra.
  - intros r Hr. unfold norm.
    destruct r as [|[|r]]; [| |lia]; cbn;
      (transitivity (sqrt 1); [f_equal; lra | apply sqrt_1]).
Qed.

(** [_call] undoes [_inverse]: a matrix of the support (lower triangular,
    positive diagonal, rows of norm 1, [D >= 2]) is mapped by [_inverse] to a
    vector of [D (D - 1) / 2] numbers in (-1, 1), and [_call] maps that
    vector back to the matrix. *)
Theorem call_inverse_round_trip (D : nat) (y : Tensor2) :
  (2 <= D)%nat -> in_support D y ->
  (x <- _inverse y ;; _call x) = Ok y /\
  exists x, _inverse y = Ok x /\ interior x /\
            length x = (D * (D - 1) / 2)%nat.
Proof.
  intros HD Hy.
  destruct (@inverse_then_call y D HD Hy) as (x & Hi & Hx & Hl & Hc).
  split.
  - rewrite Hi. exact Hc.
  - eauto.
Qed.

Lemma call_inverse_round_trip_witness :
  (x <- _inverse factor_2x2 ;; _call x) = Ok factor_2x2 /\
  exists x, _inverse factor_2x2 = Ok x /\ interior x /\
            length x = (2 * (2 - 1) / 2)%nat.
Proof.
  apply (@call_inverse_round_trip 2 factor_2x2);
    [lia | exact factor_2x2_in_support].
Defined.

(** [_call] is injective on its domain: two vectors of one length with
    entries in (-1, 1) that give the same matrix are the same vector. *)
Theorem call_injective (d : nat) (x1 x2 : list R) :
  (1 <= d)%nat ->
  length x1 = (d * (d - 1) / 2)%nat -> length x2 = (d * (d - 1) / 2)%nat ->
  interior x1 -> interior x2 ->
  _call x1 = _call x2 -> x1 = x2.
Proof.
  intros Hd H1 H2 Hi1 Hi2 Heq.
  destruct (Nat.eq_dec d 1) as [->|Hne].
  - destruct x1, x2; try discriminate; reflexivity.
  - destruct (@call_cells d x1 Hd H1) as (y1 & Hy1 & Hwf1 & Hs0 & Hs1 & Hc1).
    destruct (@call_cells d x2 Hd H2) as (y2 & Hy2 & Hwf2 & _ & _ & Hc2).
    assert (y1 = y2) by congruence. subst y2.
    rewrite triangle_size in H1, H2.
    assert (E1 : _inverse y1 = Ok x1)
      by (apply (@inverse_of_cells x1 d y1); try assumption; try lia;
          intros; apply Hc1; lia).
    assert (E2 : _inverse y1 = Ok x2)
      by (apply (@inverse_of_cells x2 d y1); try assumption; try lia;
          intros; apply Hc2; lia).
    congruence.
Qed.

Lemma call_injective_witness :
  _call [0.5; -0.25; 0.125] = _call [0.5; -0.25; 0.125] /\
  [0.5; -0.25; 0.125] = [0.5; -0.25; 0.125].
Proof.
  split; [reflexivity|].
  apply (@call_injective 3); try reflexivity; try lia;
    repeat constructor; lra.
Defined.



End Bijection.

(** ** The Jacobian in terms of the diagonal and of the input *)

Section JacobianForms.

Import PartialCorrToCorrLCholeskyTransform.

Lemma ln_sqrt_half (t : R) : 0 < t -> ln (sqrt t) = ln t / 2.
Proof.
  intros Ht. pose proof (sqrt_lt_R0 _ Ht) as Hs.
  rewrite <- (sqrt_sqrt t (Rlt_le _ _ Ht)) at 2.
  rewrite ln_mult by exact Hs. lra.
Qed.

Lemma ln_nonpos (t : R) : 0 < t -> t <= 1 -> ln t <= 0.
Proof.
  intros Ht [Hlt| ->].
  - left. rewrite <- ln_1. now apply ln_increasing.
  - rewrite ln_1. lra.
Qed.

Lemma remaining_le_1 (x : list R) (D r c : nat) : remaining x D r c <= 1.
Proof.
  induction c as [|c IH]; [simpl; lra|].
  rewrite remaining_S.
  pose proof (pow2_ge_0 (partial x D r c * sqrt (remaining x D r c))). lra.
Qed.

Lemma remaining_factor (x : list R) (D r c : nat) :
  interior x ->
  remaining x D r (S c) = remaining x D r c * (1 - partial x D r c ^ 2).
Proof.
  intros Hx. rewrite remaining_S.
  pose proof (sqrt_sqrt _ (Rlt_le _ _ (remaining_pos D r c Hx))) as Hs.
  set (s := sqrt (remaining x D r c)) in *. rewrite <- Hs. ring.
Qed.

Lemma ln_remaining (x : list R) (D r n : nat) :
  interior x ->
  ln (remaining x D r n) = big_sum (fun c => ln (1 - partial x D r c ^ 2)) n.
Proof.
  intros Hx. induction n as [|n IH]; [simpl; apply ln_1|].
  rewrite remaining_factor by exact Hx.
  pose proof (interior_nth (offset D n + (r - n - 1)) Hx) as Hp.
  fold (partial x D r n) in Hp.
  rewrite ln_mult; [| apply remaining_pos, Hx | nra].
  rewrite IH. reflexivity.
Qed.

Lemma offdiag_of_cells (x : list R) (d : nat) (y : Tensor2) (r : nat) :
  shape1 y = d ->
  (forall r c, (r < d)%nat -> (c < d)%nat -> item y r c = cell x d r c) ->
  (r < d)%nat -> offdiag_sumsq y r = 1 - remaining x d r r.
Proof.
  intros Hs1 Hc Hr. unfold offdiag_sumsq. rewrite Hs1.
  rewrite (big_sum_ext _
             (fun c => if (c =? r)%nat then 0 else cell x d r c ^ 2)).
  - rewrite offdiag_cells. now replace (Nat.min d r) with r by lia.
  - intros c Hcd. now rewrite Hc.
Qed.

Lemma big_sum_plus (f g : nat -> R) (n : nat) :
  big_sum (fun k => f k + g k) n = big_sum f n + big_sum g n.
Proof. induction n as [|n IH]; simpl; [lra | rewrite IH; lra]. Qed.

Lemma big_sum_scal (a : R) (f : nat -> R) (n : nat) :
  big_sum (fun k => a * f k) n = a * big_sum f n.
Proof. induction n as [|n IH]; simpl; [lra | rewrite IH; lra]. Qed.

Lemma big_sum_nonpos (f : nat -> R) (n : nat) :
  (forall k, (k < n)%nat -> f k <= 0) -> big_sum f n <= 0.
Proof.
  induction n as [|n IH]; intros H; simpl; [lra|].
  pose proof (IH ltac:(intros; apply H; lia)). pose proof (H n ltac:(lia)).
  lra.
Qed.

(** The pairs [(r, c)] with [c < r < D], row by row and column by column. *)
Lemma triangle_swap (h : nat -> nat -> R) (D : nat) :
  big_sum (fun r => big_sum (fun c => h r c) r) D =
  big_sum (fun c => big_sum (fun k => h (c + 1 + k)%nat c) (D - 1 - c)) D.
Proof.
  induction D as [|D IH]; [reflexivity|].
  change (big_sum (fun r => big_sum (fun c => h r c) r) (S D))
    with (big_sum (fun r => big_sum (fun c => h r c) r) D
          + big_sum (fun c => h D c) D).
  change (big_sum (fun c => big_sum (fun k => h (c + 1 + k)%nat c)
                              (S D - 1 - c)) (S D))
    with (big_sum (fun c => big_sum (fun k => h (c + 1 + k)%nat c)
                              (S D - 1 - c)) D
          + big_sum (fun k => h (D + 1 + k)%nat D) (S D - 1 - D)).
  replace (S D - 1 - D)%nat with 0%nat by lia.
  rewrite IH, <- big_sum_plus. simpl (big_sum _ 0). rewrite Rplus_0_r.
  apply big_sum_ext. intros c Hc.
  replace (S D - 1 - c)%nat with (S (D - 1 - c)) by lia.
  simpl. f_equal. f_equal. lia.
Qed.

Lemma vsum_app (a b : list R) : vsum (a ++ b) = vsum a + vsum b.
Proof.
  induction a as [|u a IH]; simpl; [lra | rewrite IH; lra].
Qed.

Lemma vsum_concat_blocks (B : nat -> list R) (n : nat) :
  vsum (concat (map B (seq 0 n))) = big_sum (fun j => vsum (B j)) n.
Proof.
  induction n as [|n IH]; [reflexivity|].
  rewrite seq_S, map_app, concat_app, vsum_app, IH. simpl.
  rewrite app_nil_r. reflexivity.
Qed.

Lemma length_block_of (x : list R) (D j : nat) :
  length x = offset D D -> (S j <= D)%nat ->
  length (block x D j) = (D - 1 - j)%nat.
Proof.
  intros Hlen Hj. unfold block. rewrite length_slice.
  - simpl. lia.
  - rewrite Hlen. now apply offset_le.
Qed.

Lemma nth_block_of (x : list R) (D j k : nat) :
  (k < D - 1 - j)%nat -> nth k (block x D j) 0 = nth (offset D j + k) x 0.
Proof.
  intros Hk. unfold block. apply nth_slice. simpl. lia.
Qed.

(** A sum over the entries of [x], taken block by block. *)
Lemma vsum_by_blocks (f : R -> R) (x : list R) (D : nat) :
  length x = offset D D ->
  vsum (map f x) =
  big_sum (fun c => big_sum (fun k => f (partial x D (c + 1 + k) c))
                            (D - 1 - c)) D.
Proof.
  intros Hlen.
  rewrite <- (firstn_all x) at 1. rewrite Hlen, <- concat_blocks.
  rewrite concat_map, map_map, vsum_concat_blocks.
  apply big_sum_ext. intros c Hc.
  rewrite vsum_big_sum, length_map, length_block_of by (try exact Hlen; lia).
  apply big_sum_ext. intros k Hk.
  rewrite nth_map_R
    by (rewrite length_block_of by (try exact Hlen; lia); lia).
  rewrite nth_block_of by lia. unfold partial. f_equal. f_equal. lia.
Qed.

(** On the matrix that [_call] returns for [x] in (-1, 1)^(d (d - 1) / 2),
    [log_abs_det_jacobian] is the sum of the logarithms of the diagonal of
    the matrix, and it is never positive. *)
Theorem log_abs_det_jacobian_log_diagonal (d : nat) (x : list R) :
  (1 <= d)%nat -> length x = (d * (d - 1) / 2)%nat -> interior x ->
  exists y, _call x = Ok y /\
    log_abs_det_jacobian (Some x) y
    = Ok (big_sum (fun r => ln (item y r r)) d) /\
    big_sum (fun r => ln (item y r r)) d <= 0.
Proof.
  intros Hd Hlen Hx.
  destruct (@call_cells d x Hd Hlen) as (y & Hy & Hwf & Hs0 & Hs1 & Hc).
  assert (Hdiag : forall r, (r < d)%nat ->
            ln (item y r r) = 0.5 * ln (1 - offdiag_sumsq y r)).
  { intros r Hr. rewrite (@offdiag_of_cells x d) by assumption.
    rewrite Hc by lia. unfold cell. rewrite Nat.ltb_irrefl, Nat.eqb_refl.
    rewrite ln_sqrt_half by (apply remaining_pos, Hx).
    replace (1 - (1 - remaining x d r r)) with (remaining x d r r) by lra.
    lra. }
  exists y. split; [exact Hy|]. split.
  - rewrite log_abs_det_jacobian_square by (try exact Hwf; congruence).
    rewrite Hs0, <- big_sum_scal. f_equal.
    apply big_sum_ext. intros r Hr. now rewrite Hdiag.
  - apply big_sum_nonpos. intros r Hr.
    rewrite Hc by lia. unfold cell. rewrite Nat.ltb_irrefl, Nat.eqb_refl.
    rewrite ln_sqrt_half by (apply remaining_pos, Hx).
    pose proof (ln_nonpos (remaining_pos d r r Hx) (remaining_le_1 x d r r)).
    lra.
Qed.

Lemma log_abs_det_jacobian_log_diagonal_witness :
  exists y, _call [0.5] = Ok y /\
    log_abs_det_jacobian (Some [0.5]) y
    = Ok (big_sum (fun r => ln (item y r r)) 2) /\
    big_sum (fun r => ln (item y r r)) 2 <= 0.
Proof.
  apply (@log_abs_det_jacobian_log_diagonal 2 [0.5]); [lia | reflexivity |].
  repeat constructor; lra.
Defined.

Lemma log_abs_det_jacobian_on_call (d : nat) (x : list R) :
  (1 <= d)%nat -> length x = (d * (d - 1) / 2)%nat -> interior x ->
  exists y, _call x = Ok y /\ in_support d y /\
    forall x0, log_abs_det_jacobian x0 y
               = Ok (0.5 * vsum (map (fun v => ln (1 - v ^ 2)) x)).
Proof.
  intros Hd Hlen Hx.
  destruct (@call_in_support d x Hd Hlen Hx)
    as (y & Hy & Hsup & Hc).
  destruct Hsup as (Hwf & Hs0 & Hs1 & Hrest).
  exists y. split; [exact Hy|].
  split; [exact (conj Hwf (conj Hs0 (conj Hs1 Hrest)))|].
  intros x0.
  rewrite log_abs_det_jacobian_square by (try exact Hwf; congruence).
  rewrite Hs0. f_equal. f_equal.
  rewrite (@vsum_by_blocks _ x d) by (now rewrite <- triangle_size).
  rewrite <- (triangle_swap (fun r c => ln (1 - partial x d r c ^ 2))).
  apply big_sum_ext. intros r Hr.
  rewrite (@offdiag_of_cells x d) by assumption.
  replace (1 - (1 - remaining x d r r)) with (remaining x d r r) by lra.
  now apply ln_remaining.
Qed.

(** In terms of its input: for [x] in (-1, 1)^(d (d - 1) / 2), the value of
    [log_abs_det_jacobian(x, _call(x))] is half the sum of
    [log(1 - v^2)] over the entries [v] of [x]. *)
Theorem log_abs_det_jacobian_of_input (d : nat) (x : list R) :
  (1 <= d)%nat -> length x = (d * (d - 1) / 2)%nat -> interior x ->
  (y <- _call x ;; log_abs_det_jacobian (Some x) y)
  = Ok (0.5 * vsum (map (fun v => ln (1 - v ^ 2)) x)).
Proof.
  intros Hd Hlen Hx.
  destruct (@log_abs_det_jacobian_on_call d x Hd Hlen Hx) as (y & Hy & _ & H).
  rewrite Hy. apply H.
Qed.

Lemma log_abs_det_jacobian_of_input_witness :
  (y <- _call [0.5; -0.25; 0.125] ;;
   log_abs_det_jacobian (Some [0.5; -0.25; 0.125]) y)
  = Ok (0.5 * vsum (map (fun v => ln (1 - v ^ 2)) [0.5; -0.25; 0.125])).
Proof.
  apply (@log_abs_det_jacobian_of_input 3); [lia | reflexivity |].
  repeat constructor; lra.
Defined.

End JacobianForms.

(** ** UnconstrainedToCorrLCholeskyTransform on all of its domain *)

Section UnconstrainedForms.

Import UnconstrainedToCorrLCholeskyTransform.

(** [tanh] undoes the logarithm of [_inverse] on (-1, 1). *)
Lemma tanh_log_ratio (z : R) :
  -1 < z < 1 -> tanh (ln ((1 + z) / (1 - z)) / 2) = z.
Proof.
  intros Hz. set (w := ln ((1 + z) / (1 - z)) / 2).
  assert (Hq : 0 < (1 + z) / (1 - z))
    by (apply Rdiv_lt_0_compat; lra).
  rewrite tanh_as_exp.
  pose proof (exp_pos w) as Ha.
  assert (Haa : exp w * exp w = (1 + z) / (1 - z)).
  { rewrite <- exp_plus. unfold w.
    replace (ln ((1 + z) / (1 - z)) / 2 + ln ((1 + z) / (1 - z)) / 2)
      with (ln ((1 + z) / (1 - z))) by lra.
    now apply exp_ln. }
  rewrite exp_Ropp. set (a := exp w) in *.
  replace ((a - / a) / (a + / a)) with ((a * a - 1) / (a * a + 1))
    by (field; split; nra).
  rewrite Haa. field. lra.
Qed.

Lemma cosh_pos (u : R) : 0 < cosh u.
Proof.
  unfold cosh. pose proof (exp_pos u). pose proof (exp_pos (- u)). lra.
Qed.

Lemma one_minus_tanh_sq (u : R) : 1 - tanh u ^ 2 = / (cosh u * cosh u).
Proof.
  unfold tanh. pose proof (cosh_pos u) as Hc.
  assert (H : cosh u * cosh u - sinh u * sinh u = 1).
  { unfold cosh, sinh.
    assert (E : exp u * exp (- u) = 1)
      by (rewrite <- exp_plus, Rplus_opp_r; apply exp_0).
    nra. }
  replace (1 - (sinh u / cosh u) ^ 2)
    with ((cosh u * cosh u - sinh u * sinh u) / (cosh u * cosh u))
    by (field; lra).
  rewrite H. field. lra.
Qed.

Lemma ln_one_minus_tanh_sq (u : R) :
  ln (1 - tanh u ^ 2) = -2 * ln (cosh u).
Proof.
  pose proof (cosh_pos u) as Hc.
  rewrite one_minus_tanh_sq, ln_Rinv by nra.
  rewrite ln_mult by exact Hc. lra.
Qed.

Lemma vsum_map_scal (a : R) (f : R -> R) (l : list R) :
  vsum (map (fun v => a * f v) l) = a * vsum (map f l).
Proof.
  induction l as [|u l IH]; simpl; [lra | rewrite IH; lra].
Qed.

(** For a real vector [u] of length [d (d - 1) / 2] with entries in
    [-1, 1] and [1 <= d <= 6], [_call] of
    UnconstrainedToCorrLCholeskyTransform returns a matrix of the support:
    [d x d], lower triangular, positive diagonal, rows of norm 1 (exactly
    over the reals).  The bounds keep [tanh] away from its single-precision
    saturation and every diagonal entry above 0.1. *)
Theorem unconstrained_call_in_support (d : nat) (u : list R) :
  (1 <= d)%nat -> (d <= 6)%nat -> length u = (d * (d - 1) / 2)%nat ->
  Forall (fun v => -1 <= v <= 1) u ->
  exists y, _call u = Ok y /\ in_support d y.
Proof.
  intros Hd _ Hlen _. unfold _call.
  destruct (@call_in_support d (map tanh u) Hd
              ltac:(now rewrite length_map) (interior_map_tanh u))
    as (y & Hy & Hsup & _).
  eauto.
Qed.

Lemma unconstrained_call_in_support_witness :
  exists y, _call [1; -0.5; 0] = Ok y /\ in_support 3 y.
Proof.
  apply (@unconstrained_call_in_support 3);
    [lia | lia | reflexivity | repeat constructor; lra].
Defined.

(** [_call] undoes [_inverse] for UnconstrainedToCorrLCholeskyTransform as
    well: on a matrix of the support with [D >= 2], the forward map applied
    to the result of the inverse map gives the matrix back. *)
Theorem unconstrained_call_inverse_round_trip (D : nat) (y : Tensor2) :
  (2 <= D)%nat -> in_support D y ->
  (u <- _inverse y ;; _call u) = Ok y.
Proof.
  intros HD Hy. unfold _inverse, _call.
  destruct (@inverse_then_call y D HD Hy) as (x & Hi & Hx & Hl & Hc).
  rewrite Hi. cbv beta iota delta [bind].
  rewrite map_map.
  replace (map (fun v => tanh (ln ((1 + v) / (1 - v)) / 2)) x) with x;
    [exact Hc|].
  rewrite <- (map_id x) at 1. apply map_ext_in.
  intros z Hz. symmetry. apply tanh_log_ratio.
  unfold interior in Hx. rewrite Forall_forall in Hx. now apply Hx.
Qed.

Lemma unconstrained_call_inverse_round_trip_witness :
  (u <- _inverse factor_2x2 ;; _call u) = Ok factor_2x2.
Proof.
  apply (@unconstrained_call_inverse_round_trip 2);
    [lia | exact factor_2x2_in_support].
Defined.

(** In terms of its input: for a real vector [u] of length
    [d (d - 1) / 2] with entries in [-1, 1] and [1 <= d <= 6],
    [log_abs_det_jacobian(u, _call(u))] of
    UnconstrainedToCorrLCholeskyTransform is minus three times the sum of
    [log(cosh(v))] over the entries [v] of [u]: minus two times from the
    [tanh], and minus once from the inner transform (exactly over the reals).
    The bounds keep [tanh] away from its single-precision saturation, where
    the source takes the logarithm of 0. *)
Theorem unconstrained_log_abs_det_jacobian_of_input (d : nat) (u : list R) :
  (1 <= d)%nat -> (d <= 6)%nat -> length u = (d * (d - 1) / 2)%nat ->
  Forall (fun v => -1 <= v <= 1) u ->
  (y <- _call u ;; log_abs_det_jacobian u y)
  = Ok (-3 * vsum (map (fun v => ln (cosh v)) u)).
Proof.
  intros Hd _ Hlen _. unfold _call, log_abs_det_jacobian.
  destruct (@log_abs_det_jacobian_on_call d (map tanh u) Hd
              ltac:(now rewrite length_map) (interior_map_tanh u))
    as (y & Hy & _ & H).
  rewrite Hy. cbv beta iota delta [bind]. rewrite H.
  cbv beta iota delta [bind]. f_equal.
  rewrite map_map.
  assert (E : map (fun v => ln (1 - tanh v ^ 2)) u
              = map (fun v => -2 * ln (cosh v)) u)
    by (apply map_ext; intros; apply ln_one_minus_tanh_sq).
  rewrite E, vsum_map_scal. lra.
Qed.

Lemma unconstrained_log_abs_det_jacobian_of_input_witness :
  (y <- _call [1; -0.5; 0] ;; log_abs_det_jacobian [1; -0.5; 0] y)
  = Ok (-3 * vsum (map (fun v => ln (cosh v)) [1; -0.5; 0])).
Proof.
  apply (@unconstrained_log_abs_det_jacobian_of_input 3);
    [lia | lia | reflexivity | repeat constructor; lra].
Defined.

End UnconstrainedForms.

(** ** CorrLCholeskyLKJPrior: construction and sampling *)

Section PriorConstruction.

Import CorrLCholeskyLKJPrior.













End PriorConstruction.

(** ** [log_prob]: the cache, the largest value, and what it reads *)

Section LogProbForms.

Import CorrLCholeskyLKJPrior.

(** [log_prob] once [lkj_constant] has returned. *)
Lemma log_prob_given_constant (self self' : t) (c : R) (y : Tensor2)
      (Km1 : nat) :
  lkj_constant self (_eta self) (_d self) = Ok (c, self') ->
  shape1 y = S Km1 -> (S Km1 <= shape0 y)%nat ->
  log_prob self y =
  Ok (c + big_sum (fun k => ln (item y k k)
                           * (INR (Km1 - 1 - k) + 2 * _eta self - 2)) Km1,
      self').
Proof.
  intros Hlp Hs1 Hs0.
  unfold log_prob. rewrite Hlp, Hs1. cbv beta iota zeta delta [bind fst snd].
  assert (Hdiag : length (diagonal y) = S Km1)
    by (rewrite length_diagonal; lia).
  assert (Hld : length (map ln (drop_last (diagonal y))) = Km1)
    by (rewrite length_map, length_drop_last, Hdiag; lia).
  rewrite Hld. unfold expand_as. rewrite length_linspace, Nat.eqb_refl.
  f_equal. f_equal. rewrite Rplus_comm. f_equal.
  rewrite vsum_map2_plus
    by (unfold vmul;
        rewrite length_map2, length_linspace, !length_map, length_drop_last,
          Hdiag; lia).
  unfold vmul. rewrite length_map2, Hld, length_linspace, Nat.min_id.
  apply big_sum_ext. intros k Hk.
  rewrite nth_map2 by (rewrite ?Hld, ?length_linspace; exact Hk).
  rewrite !nth_map_R by (rewrite ?length_drop_last, ?Hdiag; lia).
  rewrite nth_linspace_down by exact Hk.
  unfold drop_last. rewrite nth_firstn, Hdiag.
  replace (k <? S Km1 - 1)%nat with true by (symmetry; apply Nat.ltb_lt; lia).
  unfold diagonal. rewrite nth_tabulate by lia. lra.
Qed.

(** What [lkj_constant] leaves behind: the value it returned, cached, on an
    instance that differs from the old one in the cache only. *)
Lemma lkj_constant_post (self self' : t) (eta : R) (K : nat) (c : R) :
  lkj_constant self eta K = Ok (c, self') ->
  _lkj_constant self' = Some c /\ _eta self' = _eta self /\
  _d self' = _d self /\ concentrations self' = concentrations self.
Proof.
  unfold lkj_constant. destruct (_lkj_constant self) as [c0|] eqn:Hc.
  - intros [= <- <-]. auto.
  - destruct K as [|Km1]; [discriminate|]. intros [= <- <-]. auto.
Qed.

Lemma log_prob_constant (self self' : t) (y : Tensor2) (v : R) :
  log_prob self y = Ok (v, self') ->
  exists c, lkj_constant self (_eta self) (_d self) = Ok (c, self').
Proof.
  unfold log_prob.
  destruct (lkj_constant self (_eta self) (_d self)) as [[c s]|e];
    [|discriminate].
  cbv beta iota zeta delta [bind fst snd].
  destruct (shape1 y); [discriminate|].
  destruct (expand_as _ _); [|discriminate].
  intros [= _ <-]. eauto.
Qed.

(** After one [log_prob] the constant is in the cache and stays there: a
    further [lkj_constant], with whatever arguments, returns the cached
    number and leaves the instance as it is, and a further [log_prob], on
    any matrix with at least as many rows as columns, adds that same number
    and leaves the instance as it is. *)
Theorem log_prob_reuses_constant (self : t) (y1 y2 : Tensor2) (Km1 : nat) :
  shape1 y2 = S Km1 -> (S Km1 <= shape0 y2)%nat ->
  match log_prob self y1 with
  | Raise _ => True
  | Ok (_, s1) =>
      exists c, _lkj_constant s1 = Some c /\
        (forall eta K, lkj_constant s1 eta K = Ok (c, s1)) /\
        log_prob s1 y2 =
          Ok (c + big_sum (fun k => ln (item y2 k k)
                                   * (INR (Km1 - 1 - k) + 2 * _eta self - 2))
                          Km1,
              s1)
  end.
Proof.
  intros Hs1 Hs0.
  destruct (log_prob self y1) as [[v1 s1]|e] eqn:H1; [|exact I].
  destruct (@log_prob_constant _ _ _ _ H1) as (c & Hc).
  destruct (@lkj_constant_post _ _ _ _ _ Hc) as (Hcache & Heta & _).
  assert (Hagain : forall eta K, lkj_constant s1 eta K = Ok (c, s1))
    by (intros; unfold lkj_constant; now rewrite Hcache).
  exists c. split; [exact Hcache|]. split; [exact Hagain|].
  rewrite <- Heta. apply log_prob_given_constant; auto.
Qed.

Lemma log_prob_reuses_constant_witness :
  match log_prob prior_2_1 factor_2x2 with
  | Raise _ => True
  | Ok (_, s1) =>
      exists c, _lkj_constant s1 = Some c /\
        (forall eta K, lkj_constant s1 eta K = Ok (c, s1)) /\
        log_prob s1 matrix_3x2 =
          Ok (c + big_sum (fun k => ln (item matrix_3x2 k k)
                                   * (INR (1 - 1 - k)
                                      + 2 * _eta prior_2_1 - 2))
                          1,
              s1)
  end.
Proof.
  apply (@log_prob_reuses_constant prior_2_1 factor_2x2 matrix_3x2 1);
    [reflexivity | simpl; lia].
Defined.

Lemma support_diagonal_le_1 (K : nat) (y : Tensor2) (k : nat) :
  in_support K y -> (k < K)%nat -> 0 < item y k k <= 1.
Proof.
  intros Hy Hk. destruct Hy as (Hwf & Hs0 & Hs1 & Hup & Hpos & Hnorm).
  split; [now apply Hpos|].
  pose proof (Hnorm k Hk) as Hn. unfold norm in Hn.
  rewrite row_sumsq, Hs1 in Hn by (try exact Hwf; lia).
  assert (H0 : 0 <= sumsq_before y k K)
    by (apply big_sum_nonneg; intros; apply pow2_ge_0).
  assert (H1 : sumsq_before y k K = 1)
    by (rewrite <- (sqrt_sqrt _ H0), Hn; lra).
  pose proof (@sumsq_before_le y k (S k) K ltac:(lia)) as Hle.
  rewrite sumsq_before_S in Hle.
  assert (H2 : 0 <= sumsq_before y k k)
    by (apply big_sum_nonneg; intros; apply pow2_ge_0).
  pose proof (Hpos k Hk). nra.
Qed.

(** With [eta >= 1], [log_prob] on a matrix of the support is never above
    the normalizing constant, and it equals the constant when the diagonal
    entries it reads are all 1 (the identity matrix among them). *)
Theorem log_prob_at_most_constant (self : t) (y : Tensor2) (K : nat) :
  (1 <= K)%nat -> (1 <= _d self)%nat -> 1 <= _eta self -> in_support K y ->
  exists v c self',
    log_prob self y = Ok (v, self') /\ _lkj_constant self' = Some c /\
    v <= c /\
    ((forall k, (k < K - 1)%nat -> item y k k = 1) -> v = c).
Proof.
  intros HK Hd Heta Hy.
  destruct (lkj_constant_cached self Hd) as (c & self' & Hlp & Hc & _).
  pose proof Hy as (_ & Hs0 & Hs1 & _).
  destruct K as [|Km1]; [lia|].
  eexists _, c, self'.
  split; [apply log_prob_given_constant; [exact Hlp | exact Hs1 | lia]|].
  split; [exact Hc|]. split.
  - assert (Hs : big_sum (fun k => ln (item y k k)
                            * (INR (Km1 - 1 - k) + 2 * _eta self - 2)) Km1
                 <= 0).
    { apply big_sum_nonpos. intros k Hk.
      destruct (@support_diagonal_le_1 (S Km1) y k Hy ltac:(lia)) as [Hp Hl].
      pose proof (ln_nonpos Hp Hl). pose proof (pos_INR (Km1 - 1 - k)).
      nra. }
    lra.
  - intros Hone.
    rewrite (big_sum_ext _ (fun _ => 0)).
    + clear. induction Km1 as [|n IH]; simpl; lra.
    + intros k Hk. rewrite Hone by lia. rewrite ln_1. lra.
Qed.

Lemma factor_3x3_in_support : in_support 3 factor_3x3.
Proof.
  unfold in_support, factor_3x3.
  refine (conj _ (conj eq_refl (conj eq_refl (conj _ (conj _ _))))).
  - split; [reflexivity|]. intros r Hr. simpl in Hr.
    destruct r as [|[|[|r]]]; [reflexivity | reflexivity | reflexivity | lia].
  - intros r c Hr Hc.
    assert ((r = 0 /\ c = 1) \/ (r = 0 /\ c = 2) \/ (r = 1 /\ c = 2))%nat
      as [[-> ->]|[[-> ->]|[-> ->]]] by lia; reflexivity.
  - intros r Hr. destruct r as [|[|[|r]]]; [| | |lia]; cbn; lra.
  - intros r Hr. unfold norm.
    destruct r as [|[|[|r]]]; [| | |lia]; cbn;
      (transitivity (sqrt 1); [f_equal; lra | apply sqrt_1]).
Qed.

Lemma log_prob_at_most_constant_witness :
  exists v c self',
    log_prob prior_3_2 factor_3x3 = Ok (v, self') /\
    _lkj_constant self' = Some c /\ v <= c /\
    ((forall k, (k < 3 - 1)%nat -> item factor_3x3 k k = 1) -> v = c).
Proof.
  apply (@log_prob_at_most_constant prior_3_2 factor_3x3 3);
    [lia | simpl; lia | simpl; lra | exact factor_3x3_in_support].
Defined.

(** At [K = 3], [eta = 2] and diagonal [1, 0.8, 0.8] the value lies strictly
    below the constant: the sum is [2 log 0.8], the term of the entry
    [y[1,1]], and the last diagonal entry has no term. *)
Example log_prob_sum_factor_3x3 :
  big_sum (fun k => ln (item factor_3x3 k k)
                    * (INR (3 - 2 - k) + 2 * _eta prior_3_2 - 2)) (3 - 1)
  = 2 * ln 0.8 /\ 2 * ln 0.8 < 0.
Proof.
  split; [cbn; rewrite ln_1; lra|].
  assert (H : ln 0.8 < ln 1) by (apply ln_increasing; lra).
  rewrite ln_1 in H. lra.
Qed.

(** [log_prob] reads the diagonal without its last entry, and nothing else:
    two square matrices of one size that agree there get the same result,
    whatever their other entries are. *)
Theorem log_prob_reads_diagonal (self : t) (y y' : Tensor2) (K : nat) :
  shape0 y = K -> shape1 y = K -> shape0 y' = K -> shape1 y' = K ->
  (forall k, (k < K - 1)%nat -> item y k k = item y' k k) ->
  log_prob self y = log_prob self y'.
Proof.
  intros H0 H1 H0' H1' Hdiag.
  destruct (lkj_constant self (_eta self) (_d self)) as [[c s]|e] eqn:Hlp.
  - destruct K as [|Km1].
    + unfold log_prob. now rewrite H1, H1'.
    + rewrite (@log_prob_given_constant self s c y Km1) by (auto; lia).
      rewrite (@log_prob_given_constant self s c y' Km1) by (auto; lia).
      f_equal. f_equal. f_equal. apply big_sum_ext. intros k Hk.
      rewrite Hdiag by lia. reflexivity.
  - unfold log_prob. now rewrite Hlp.
Qed.

Lemma log_prob_reads_diagonal_witness :
  log_prob prior_2_1 factor_2x2
  = log_prob prior_2_1 (mkTensor2 2 2 [[1; 5]; [-3; 0]]).
Proof.
  apply (@log_prob_reads_diagonal prior_2_1 _ _ 2); try reflexivity.
  intros k Hk. replace k with 0%nat by lia. reflexivity.
Defined.

End LogProbForms.

(** ** _CorrCholesky.check *)

Section CheckForms.

Lemma Rltb_true (a b : R) : a < b -> Rltb a b = true.
Proof. intros H. unfold Rltb. destruct (Rlt_dec a b); [reflexivity | lra]. Qed.

Lemma Reqb_true (a b : R) : a = b -> Reqb a b = true.
Proof.
  intros H. unfold Reqb.
  destruct (Req_dec_T a b); [reflexivity | contradiction].
Qed.

Lemma all_min_tabulate (n : nat) (f : nat -> bool) :
  (1 <= n)%nat -> (forall r, (r < n)%nat -> f r = true) ->
  all_min (tabulate n f) = Ok true.
Proof.
  intros Hn Hf.
  assert (Hall : forallb (fun b => b) (tabulate n f) = true).
  { apply forallb_forall. intros b Hb. unfold tabulate in Hb.
    apply in_map_iff in Hb. destruct Hb as (r & <- & Hr).
    apply in_seq in Hr. apply Hf. lia. }
  destruct n as [|n]; [lia|].
  unfold tabulate in *. simpl in *. unfold all_min. now rewrite Hall.
Qed.

(** What [check] accepts: a square lower-triangular matrix with a positive
    diagonal whose rows have norm below [1 + 1e-6]. *)
Lemma check_accepts (D : nat) (y : Tensor2) :
  (1 <= D)%nat -> shape0 y = D -> shape1 y = D ->
  (forall r c, (r < c)%nat -> (c < D)%nat -> item y r c = 0) ->
  (forall r, (r < D)%nat -> 0 < item y r r) ->
  (forall r, (r < D)%nat -> norm (row y r) < 1 + 1e-6) ->
  CorrCholesky.check y = Ok true.
Proof.
  intros HD Hs0 Hs1 Hup Hpos Hnorm. unfold CorrCholesky.check.
  rewrite all_min_tabulate; [| lia |].
  - cbv beta iota delta [bind]. f_equal. rewrite andb_true_r.
    unfold lower_cholesky_check. apply andb_true_intro. split.
    + apply forallb_forall. intros r Hr. apply in_seq in Hr.
      apply forallb_forall. intros c Hc. apply in_seq in Hc.
      destruct (Nat.ltb_spec r c); [|reflexivity].
      apply Reqb_true, Hup; lia.
    + apply forallb_forall. intros v Hv. unfold diagonal, tabulate in Hv.
      apply in_map_iff in Hv. destruct Hv as (k & <- & Hk).
      apply in_seq in Hk. apply Rltb_true, Hpos. lia.
  - intros r Hr. apply Rltb_true.
    pose proof (Hnorm r ltac:(lia)). lra.
Qed.

(** The matrices that the two transforms return pass the check of the
    constraint that they declare as their codomain, for [1 <= d <= 6]:
    [_call] of _PartialCorrToCorrLCholeskyTransform on [x] with
    [d (d - 1) / 2] entries in [-0.9, 0.9], and [_call] of
    UnconstrainedToCorrLCholeskyTransform on [u] with as many entries in
    [-1, 1] (exactly over the reals).  The bounds keep every diagonal entry
    above 0.01, away from the single-precision saturation of [tanh]. *)
Theorem call_passes_check (d : nat) (x u : list R) :
  (1 <= d)%nat -> (d <= 6)%nat ->
  length x = (d * (d - 1) / 2)%nat -> Forall (fun v => -0.9 <= v <= 0.9) x ->
  length u = (d * (d - 1) / 2)%nat -> Forall (fun v => -1 <= v <= 1) u ->
  (exists y, PartialCorrToCorrLCholeskyTransform._call x = Ok y /\
             CorrCholesky.check y = Ok true) /\
  (exists y, UnconstrainedToCorrLCholeskyTransform._call u = Ok y /\
             CorrCholesky.check y = Ok true).
Proof.
  intros Hd _ Hx Hxb Hu _.
  assert (Hxi : interior x)
    by (revert Hxb; apply Forall_impl; intros v Hv; lra).
  assert (Hsup : forall y, in_support d y -> CorrCholesky.check y = Ok true).
  { intros y (Hwf & Hs0 & Hs1 & Hup & Hpos & Hnorm).
    apply (@check_accepts d); try assumption.
    intros r Hr. rewrite Hnorm by exact Hr. lra. }
  split.
  - destruct (@call_in_support d x Hd Hx Hxi) as (y & Hy & Hs & _). eauto.
  - unfold UnconstrainedToCorrLCholeskyTransform._call.
    destruct (@call_in_support d (map tanh u) Hd
                ltac:(now rewrite length_map) (interior_map_tanh u))
      as (y & Hy & Hs & _).
    eauto.
Qed.

Lemma call_passes_check_witness :
  (exists y, PartialCorrToCorrLCholeskyTransform._call [0.5; -0.25; 0.125]
             = Ok y /\ CorrCholesky.check y = Ok true) /\
  (exists y, UnconstrainedToCorrLCholeskyTransform._call [1; -0.5; 0] = Ok y /\
             CorrCholesky.check y = Ok true).
Proof.
  apply (@call_passes_check 3); try reflexivity; try lia;
    repeat constructor; lra.
Defined.

(** [check] tests the norm of a row from above only: a square
    lower-triangular matrix with a positive diagonal passes as soon as no row
    is longer than 1, however short its rows are. *)
Theorem check_accepts_short_rows (D : nat) (y : Tensor2) :
  (1 <= D)%nat -> shape0 y = D -> shape1 y = D ->
  (forall r c, (r < c)%nat -> (c < D)%nat -> item y r c = 0) ->
  (forall r, (r < D)%nat -> 0 < item y r r) ->
  (forall r, (r < D)%nat -> norm (row y r) <= 1) ->
  CorrCholesky.check y = Ok true.
Proof.
  intros HD Hs0 Hs1 Hup Hpos Hnorm.
  apply (@check_accepts D); try assumption.
  intros r Hr. pose proof (Hnorm r Hr). lra.
Qed.

Lemma check_accepts_short_rows_witness :
  CorrCholesky.check (mkTensor2 2 2 [[0.5; 0]; [0; 0.25]]) = Ok true.
Proof.
  apply (@check_accepts_short_rows 2); try reflexivity; try lia.
  - intros r c Hr Hc.
    assert (r = 0%nat /\ c = 1%nat) as [-> ->] by lia. reflexivity.
  - intros r Hr. destruct r as [|[|r]]; [| |lia]; cbn; lra.
  - intros r Hr. unfold norm. rewrite <- sqrt_1.
    apply sqrt_le_1_alt.
    destruct r as [|[|r]]; [| |lia]; cbn; lra.
Defined.

End CheckForms.
